(** * FTPDataGenerator: the pipeline of [main.go], embedded and verified

    The program of [main.go] synthesises a test video, extracts snapshots
    from it, writes a CSV manifest of the snapshots and uploads snapshots and
    manifest over FTP.  This file embeds the functions of [main.go] as
    functions over an explicit world (file system, network answers, the trace
    of observable actions) and proves the properties the specification states
    about them. *)

From Stdlib Require Import Ascii.
From stdpp Require Import base option list functions sorting strings pretty gmap.

Local Open Scope Z_scope.

(** ** Values of the Go program *)

(** A Go [error] is represented by its message; [None] is the [nil] error. *)
Definition error := string.

(** [*ftp.ServerConn]: the connection opened by the [connId]-th call of
    [ftp.Dial] to [connAddr]. *)
Record ServerConn := mkServerConn { connAddr : string; connId : nat }.

(** The [Config] struct.  The integer fields are Go [int]s (64 bits); the
    pointer field [FTPConn] is [None] while it is [nil]. *)
Record Config := mkConfig {
  Resolution : string;
  FPS : Z;
  Duration : Z;
  FTPUser : string;
  FTPPassword : string;
  FTPHost : string;
  FTPPort : Z;
  OutputDir : string;
  TestVideoPath : string;
  SnapshotOutputDir : string;
  VideoOutputDir : string;
  CsvOutputFile : string;
  Interval : Z;
  MaxRetries : Z;
  RetryInterval : Z;
  FTPConn : option ServerConn
}.

Definition setFTPConn (config : Config) (c : ServerConn) : Config :=
  mkConfig (Resolution config) (FPS config) (Duration config) (FTPUser config)
    (FTPPassword config) (FTPHost config) (FTPPort config) (OutputDir config)
    (TestVideoPath config) (SnapshotOutputDir config) (VideoOutputDir config)
    (CsvOutputFile config) (Interval config) (MaxRetries config)
    (RetryInterval config) (Some c).

(** Arithmetic on [time.Duration] (an [int64]) wraps around. *)
Definition wrap64 (z : Z) : Z := (z + 2 ^ 63) mod 2 ^ 64 - 2 ^ 63.

Definition Millisecond : Z := 1000000.
Definition Second : Z := 1000000000.

(** ** The world the program runs in *)

(** An entry of the file system. *)
Inductive Node :=
| Regular (contents : string) (modTime : string) (readable : bool)
    (** a regular file, with the text [ModTime().String()] gives for it *)
| Dangling
    (** a symbolic link whose target is missing: its directory lists it,
        [os.Stat] and [os.Open] fail on it *).

(** The actions of the program an observer can see, in the order they
    happen. *)
Inductive Event :=
| Log (line : string)                 (** a line written by [log] *)
| Sleep (d : Z)                       (** [time.Sleep], in nanoseconds *)
| Dial (addr : string) (timeout : Z)  (** [ftp.Dial] *)
| Login (c : ServerConn) (user password : string)
| Open (name : string)                (** [os.Open] *)
| Stor (c : ServerConn) (path : string) (data : string)
| Close (name : string)               (** [Close] of an [os.File] *)
| Create (name : string)              (** [os.Create] *)
| Write (name : string) (data : string).

(** What the environment answers.  The answers of the network and of the
    disk are not determined by the program; every theorem below holds for
    all of them, or says which answers it assumes.

    [patternError] is the syntax check [filepath.Glob] starts with: the error
    of [filepath.Match] on a malformed pattern ([ErrBadPattern]), [None] on a
    well-formed one.  The pattern syntax of the library is not part of this
    development, so the check is a parameter like the answers are. *)
Record Env := mkEnv {
  patternError : string -> option error;
  dialOutcome : nat -> option error;
    (** the error of the [k]-th call of [ftp.Dial] (counted from 0) *)
  loginOutcome : ServerConn -> option error;
  storOutcome : ServerConn -> string -> option error;
  createOutcome : string -> option error;
  writeOutcome : string -> option error;
  closeOutcome : string -> option error;
  now : string
    (** the modification time a file created now gets *)
}.

Record World := mkWorld {
  env : Env;
  files : gmap string Node;   (** the file system: path to entry *)
  dials : nat;                (** calls of [ftp.Dial] so far *)
  events : list Event         (** the trace so far *)
}.

(** ** Computations: state passing, with panics *)

Inductive Completion (A : Type) :=
| Returns (a : A)
| Panics (reason : string).
Arguments Returns {A} a.
Arguments Panics {A} reason.

Definition IO (A : Type) : Type := World -> Completion A * World.

#[global] Instance IO_ret : MRet IO := fun A a w => (Returns a, w).
#[global] Instance IO_bind : MBind IO := fun A B f m w =>
  match m w with
  | (Returns a, w') => f a w'
  | (Panics r, w') => (Panics r, w')
  end.

Definition emit (e : Event) : IO unit := fun w =>
  (Returns tt, mkWorld (env w) (files w) (dials w) (events w ++ [e])).

Definition panic {A} (reason : string) : IO A := fun w => (Panics reason, w).

(** The world a computation ends in, and how it ends. *)
Definition finalWorld {A} (m : IO A) (w : World) : World := (m w).2.
Definition outcome {A} (m : IO A) (w : World) : Completion A := (m w).1.

(** *** The library calls of [main.go] *)

(** [log.Println] and [log.Printf]: one line in the log. *)
Definition log_Println (line : string) : IO unit := emit (Log line).

Definition time_Sleep (d : Z) : IO unit := emit (Sleep d).

(** [%d] of [fmt]. *)
Definition itoa (z : Z) : string := pretty z.

(** [ftp.Dial(addr, ftp.DialWithTimeout(timeout))]. *)
Definition ftp_Dial (addr : string) (timeout : Z) : IO (ServerConn + error) :=
  fun w =>
    let k := dials w in
    let w' := mkWorld (env w) (files w) (S k) (events w ++ [Dial addr timeout]) in
    match dialOutcome (env w) k with
    | None => (Returns (inl (mkServerConn addr k)), w')
    | Some err => (Returns (inr err), w')
    end.

(** [c.Login(user, password)]. *)
Definition ftp_Login (c : ServerConn) (user password : string) : IO (option error) :=
  fun w =>
    (Returns (loginOutcome (env w) c),
     mkWorld (env w) (files w) (dials w) (events w ++ [Login c user password])).

(** ** [establishFTPConnection] *)

Definition connectionTimeout : Z := wrap64 (5 * Second).

Definition dialFailed (i : Z) (config : Config) (err : error) : string :=
  "Failed to establish FTP connection, attempt " +:+ itoa (i + 1) +:+ "/"
    +:+ itoa (MaxRetries config) +:+ ": " +:+ err.

Definition loginFailed (i : Z) (config : Config) (err : error) : string :=
  "Failed to authenticate, attempt " +:+ itoa (i + 1) +:+ "/"
    +:+ itoa (MaxRetries config) +:+ ": " +:+ err.

Definition attemptsExhausted (config : Config) : error :=
  "failed to establish FTP connection after " +:+ itoa (MaxRetries config)
    +:+ " attempts".

(** The loop [for i := 0; i < config.MaxRetries; i++].  [remaining] is the
    number of iterations left, [Z.to_nat (MaxRetries config - i)]: the guard
    [i < config.MaxRetries] holds exactly when it is not zero
    ([connectLoop_guard] below).  [i + 1] does not wrap, as
    [i < MaxRetries config]. *)
Fixpoint connectLoop (remaining : nat) (i : Z) (addr : string) (config : Config)
    : IO (Config * option error) :=
  match remaining with
  | O => mret (config, Some (attemptsExhausted config))
  | S remaining' =>
      r ← ftp_Dial addr connectionTimeout;
      match r with
      | inr err =>
          log_Println (dialFailed i config err);;
          time_Sleep (RetryInterval config);;
          connectLoop remaining' (i + 1) addr config
      | inl c =>
          err ← ftp_Login c (FTPUser config) (FTPPassword config);
          match err with
          | Some err =>
              log_Println (loginFailed i config err);;
              time_Sleep (RetryInterval config);;
              connectLoop remaining' (i + 1) addr config
          | None => mret (setFTPConn config c, None)
          end
      end
  end.

(** [fmt.Sprintf("%s:%d", config.FTPHost, config.FTPPort)]. *)
Definition ftpAddr (config : Config) : string :=
  FTPHost config +:+ ":" +:+ itoa (FTPPort config).

Definition establishFTPConnection (config : Config) : IO (Config * option error) :=
  let addr := ftpAddr config in
  connectLoop (Z.to_nat (MaxRetries config - 0)) 0 addr config.

(** ** Files *)

(** An open [*os.File]: its name and, for a file opened for reading, what
    reading it yields. *)
Record File := mkFile { fileName : string; fileData : string }.

Definition withEvent (w : World) (e : Event) : World :=
  mkWorld (env w) (files w) (dials w) (events w ++ [e]).

Definition withFile (w : World) (name : string) (n : Node) (e : Event) : World :=
  mkWorld (env w) (<[name := n]> (files w)) (dials w) (events w ++ [e]).

(** [os.Open(name)]. *)
Definition os_Open (name : string) : IO (File + error) := fun w =>
  let w' := withEvent w (Open name) in
  match files w !! name with
  | Some (Regular data _ true) => (Returns (inl (mkFile name data)), w')
  | Some (Regular _ _ false) =>
      (Returns (inr ("open " +:+ name +:+ ": permission denied")), w')
  | Some Dangling | None =>
      (Returns (inr ("open " +:+ name +:+ ": no such file or directory")), w')
  end.

(** [file.Close()]. *)
Definition file_Close (file : File) : IO (option error) := fun w =>
  (Returns (closeOutcome (env w) (fileName file)),
   withEvent w (Close (fileName file))).

(** [os.Stat(name)], reduced to what [generateMetadata] reads of the result:
    the text of [fileInfo.ModTime().String()]. *)
Definition os_Stat (name : string) : IO (string + error) := fun w =>
  match files w !! name with
  | Some (Regular _ modTime _) => (Returns (inl modTime), w)
  | Some Dangling | None =>
      (Returns (inr ("stat " +:+ name +:+ ": no such file or directory")), w)
  end.

(** [os.Create(name)]: creates or truncates the file. *)
Definition os_Create (name : string) : IO (File + error) := fun w =>
  match createOutcome (env w) name with
  | Some err => (Returns (inr err), withEvent w (Create name))
  | None =>
      (Returns (inl (mkFile name EmptyString)),
       withFile w name (Regular EmptyString (now (env w)) true) (Create name))
  end.

(** Writing [data] to a file just created: what the buffered writer of
    [encoding/csv] hands to the file when it is flushed.  A failed write
    leaves the file as it was created. *)
Definition file_Write (file : File) (data : string) : IO (option error) := fun w =>
  match writeOutcome (env w) (fileName file) with
  | Some err => (Returns (Some err), withEvent w (Write (fileName file) data))
  | None =>
      (Returns None,
       withFile w (fileName file) (Regular data (now (env w)) true)
         (Write (fileName file) data))
  end.

(** [c.Stor(path, file)]. *)
Definition ftp_Stor (c : ServerConn) (path : string) (file : File) : IO (option error) :=
  fun w =>
    (Returns (storOutcome (env w) c path),
     withEvent w (Stor c path (fileData file))).

(** ** Paths: [path/filepath] on Unix *)

Definition Separator : ascii := "/"%char.

Definition IsPathSeparator (c : ascii) : bool := bool_decide (c = Separator).

Fixpoint stripSeparators (l : list ascii) : list ascii :=
  match l with
  | c :: l' => if IsPathSeparator c then stripSeparators l' else l
  | [] => []
  end.

Fixpoint untilSeparator (l : list ascii) : list ascii :=
  match l with
  | c :: l' => if IsPathSeparator c then [] else c :: untilSeparator l'
  | [] => []
  end.

(** [filepath.Base]: strip the trailing separators, then keep what follows
    the last separator.  The path is scanned from its end. *)
Definition Base (path : string) : string :=
  if bool_decide (path = EmptyString) then "."
  else
    let stripped := stripSeparators (reverse (String.list_ascii_of_string path)) in
    let element := reverse (untilSeparator stripped) in
    if bool_decide (element = []) then "/" else String.string_of_list_ascii element.

(** [filepath.Join(dir, name)] for a directory [dir] that is a clean path
    (not empty, no trailing separator, no [.] or empty element) and a single
    element [name]: [Clean] has nothing to change in [dir/name]. *)
Definition Join (dir name : string) : string := dir +:+ "/" +:+ name.

(** *** [filepath.Glob] of [snapshot*.jpg] in a directory *)

Fixpoint trimPrefix (prefix s : string) : option string :=
  match prefix, s with
  | EmptyString, _ => Some s
  | String a prefix', String b s' =>
      if bool_decide (a = b) then trimPrefix prefix' s' else None
  | String _ _, EmptyString => None
  end.

Definition hasSuffix (s suffix : string) : bool :=
  bool_decide (String.length suffix ≤ String.length s)%nat &&
  bool_decide
    (String.substring (String.length s - String.length suffix)
       (String.length suffix) s = suffix).

(** A file name: not empty, no separator in it. *)
Definition isName (s : string) : bool :=
  bool_decide (s ≠ EmptyString) &&
  forallb (fun c => negb (IsPathSeparator c)) (String.list_ascii_of_string s).

(** [filepath.Match("snapshot*.jpg", name)] for a file name: the literal
    [snapshot], then any characters, then the literal [.jpg]. *)
Definition matchSnapshot (name : string) : bool :=
  match trimPrefix "snapshot" name with
  | Some rest => hasSuffix rest ".jpg"
  | None => false
  end.

(** The name of [path] in the directory [dir], when it is an entry of it. *)
Definition childName (dir path : string) : option string :=
  match trimPrefix (dir +:+ "/") path with
  | Some name => if isName name then Some name else None
  | None => None
  end.

(** [Readdirnames]: the names of the entries of [dir], in the order the
    system lists them. *)
Definition Readdirnames (dir : string) (fs : gmap string Node) : list string :=
  omap (childName dir) (map_to_list fs).*1.

(** [sort.Strings]: ascending, bytes compared as unsigned numbers. *)
Definition sort_Strings (l : list string) : list string := merge_sort String.le l.

(** [filepath.Glob(filepath.Join(dir, "snapshot*.jpg"))] for a directory name
    [dir] without meta characters: the entries of [dir] that match, sorted by
    name, each joined to [dir]. *)
Definition snapshotPaths (dir : string) (fs : gmap string Node) : list string :=
  Join dir <$> filter (fun n => matchSnapshot n = true)
                 (sort_Strings (Readdirnames dir fs)).

Definition filepath_Glob (dir : string) : IO (list string * option error) := fun w =>
  match patternError (env w) (Join dir "snapshot*.jpg") with
  | Some err => (Returns ([], Some err), w)
  | None => (Returns (snapshotPaths dir (files w), None), w)
  end.

(** ** [encoding/csv]: the writer, with its default settings
    ([Comma] is [','], [UseCRLF] is [false]) *)

Definition quoteChar : ascii := "034"%char.
Definition commaChar : ascii := ","%char.
Definition crChar : ascii := "013"%char.
Definition lfChar : ascii := "010"%char.

Definition isSpecial (c : ascii) : bool :=
  bool_decide (c = lfChar) || bool_decide (c = crChar) ||
  bool_decide (c = quoteChar) || bool_decide (c = commaChar).

Fixpoint containsSpecial (field : string) : bool :=
  match field with
  | EmptyString => false
  | String c rest => isSpecial c || containsSpecial rest
  end.

(** [unicode.IsSpace] of the first rune [utf8.DecodeRuneInString] reads:
    the white space of ASCII, U+0085, U+00A0, U+1680, U+2000 to U+200A,
    U+2028, U+2029, U+202F, U+205F and U+3000, in their UTF-8 encodings. *)
Definition firstRuneIsSpace (field : string) : bool :=
  match N_of_ascii <$> String.list_ascii_of_string field with
  | b0 :: rest =>
      if (b0 <? 128)%N then
        (9 <=? b0)%N && (b0 <=? 13)%N || (b0 =? 32)%N
      else if (b0 =? 194)%N then
        match rest with
        | b1 :: _ => (b1 =? 133)%N || (b1 =? 160)%N
        | _ => false
        end
      else
        match rest with
        | b1 :: b2 :: _ =>
            (b0 =? 225)%N && (b1 =? 154)%N && (b2 =? 128)%N
            || (b0 =? 226)%N && (b1 =? 128)%N &&
                 ((128 <=? b2)%N && (b2 <=? 138)%N || (b2 =? 168)%N
                  || (b2 =? 169)%N || (b2 =? 175)%N)
            || (b0 =? 226)%N && (b1 =? 129)%N && (b2 =? 159)%N
            || (b0 =? 227)%N && (b1 =? 128)%N && (b2 =? 128)%N
        | _ => false
        end
  | [] => false
  end.

(** [fieldNeedsQuotes] of the writer. *)
Definition fieldNeedsQuotes (field : string) : bool :=
  if bool_decide (field = EmptyString) then false
  else if bool_decide (field = "\.") then true
  else if containsSpecial field then true
  else firstRuneIsSpace field.

(** The body of a quoted field: a quote is doubled, everything else (a
    carriage return and a line feed too) is copied. *)
Fixpoint escapeField (field : string) : string :=
  match field with
  | EmptyString => EmptyString
  | String c rest =>
      if bool_decide (c = quoteChar)
      then String quoteChar (String quoteChar (escapeField rest))
      else String c (escapeField rest)
  end.

Definition writeField (field : string) : string :=
  if fieldNeedsQuotes field
  then String quoteChar (escapeField field +:+ String quoteChar EmptyString)
  else field.

(** The fields of a record, a comma before each but the first. *)
Fixpoint writeFields (first : bool) (record : list string) : string :=
  match record with
  | [] => EmptyString
  | field :: record' =>
      (if first then EmptyString else String commaChar EmptyString)
        +:+ writeField field +:+ writeFields false record'
  end.

(** [Writer.Write]: one line per record. *)
Definition writeRecord (record : list string) : string :=
  writeFields true record +:+ String lfChar EmptyString.

Fixpoint writeRecords (records : list (list string)) : string :=
  match records with
  | [] => EmptyString
  | record :: records' => writeRecord record +:+ writeRecords records'
  end.

(** [writer.WriteAll(records)] on a writer over [file]: every record is
    written to the buffer, then the buffer is flushed to the file.  The
    deferred [writer.Flush()] that follows finds the buffer empty (or, after
    a failed write, the writer in its error state) and writes nothing. *)
Definition csv_WriteAll (file : File) (records : list (list string)) : IO (option error) :=
  file_Write file (writeRecords records).

(** ** [generateMetadata] *)

Definition csvHeader : list string := ["Filename"; "Creation Time"].

(** The loop over [snapshotFiles] that appends a record per file. *)
Fixpoint statRecords (snapshotFiles : list string) (records : list (list string))
    : IO (list (list string)) :=
  match snapshotFiles with
  | [] => mret records
  | file :: rest =>
      r ← os_Stat file;
      match r with
      | inr err =>
          log_Println ("Failed to retrieve file info for '" +:+ file +:+ "': " +:+ err);;
          statRecords rest records
      | inl modTime => statRecords rest (records ++ [[Base file; modTime]])
      end
  end.

Definition generateMetadata (config : Config) : IO unit :=
  log_Println "Generating metadata...";;
  '(snapshotFiles, err) ← filepath_Glob (SnapshotOutputDir config);
  match err with
  | Some err => log_Println ("Failed to retrieve snapshot files: " +:+ err)
  | None =>
      if bool_decide (length snapshotFiles = 0%nat)
      then log_Println "Warning: No snapshot files found."
      else
        records ← statRecords snapshotFiles [csvHeader];
        r ← os_Create (CsvOutputFile config);
        match r with
        | inr err => log_Println ("Failed to create metadata file: " +:+ err)
        | inl file =>
            err ← csv_WriteAll file records;
            match err with
            | Some err => log_Println ("Failed to write to metadata file: " +:+ err)
            | None => log_Println "Metadata generation completed."
            end;;
            (* deferred, last registered first: writer.Flush(), then the
               closure that closes the file *)
            closeErr ← file_Close file;
            match closeErr with
            | Some err => log_Println ("Failed to close metadata file: " +:+ err)
            | None => mret tt
            end
        end
  end.

(** ** [uploadFile], [uploadSnapshots], [uploadMetadata] *)

(** The named result [err] is what the body returns, until the deferred
    closure has run: it closes the file and replaces a [nil] result by the
    error of [Close].  A [nil] [config.FTPConn] makes [Stor] panic; the
    deferred closure still runs. *)
Definition uploadFile (config : Config) (sourceFile targetFile : string)
    : IO (option error) :=
  r ← os_Open sourceFile;
  match r with
  | inr err => mret (Some err)
  | inl file =>
      match FTPConn config with
      | None =>
          file_Close file;;
          panic "invalid memory address or nil pointer dereference"
      | Some c =>
          err ← ftp_Stor c targetFile file;
          closeErr ← file_Close file;
          match closeErr with
          | Some closeErr =>
              match err with
              | None => mret (Some closeErr)
              | Some err =>
                  log_Println ("Failed to close the file: " +:+ closeErr);;
                  mret (Some err)
              end
          | None => mret err
          end
      end
  end.

(** The body of the loop of [uploadSnapshots] for one file. *)
Definition uploadSnapshot (config : Config) (file : string) : IO unit :=
  err ← uploadFile config file (Join (OutputDir config) (Base file));
  match err with
  | Some err =>
      log_Println ("Failed to upload snapshot file '" +:+ file +:+ "': " +:+ err)
  | None => log_Println ("Uploaded snapshot file '" +:+ file +:+ "'")
  end;;
  time_Sleep (wrap64 (Millisecond * Interval config)).

Fixpoint forEach {A} (l : list A) (body : A -> IO unit) : IO unit :=
  match l with
  | [] => mret tt
  | x :: l' => body x;; forEach l' body
  end.

Definition uploadSnapshots (config : Config) : IO unit :=
  log_Println "Uploading snapshots to FTPS...";;
  '(snapshotFiles, err) ← filepath_Glob (SnapshotOutputDir config);
  match err with
  | Some err => log_Println ("Failed to retrieve snapshot files: " +:+ err)
  | None =>
      forEach snapshotFiles (uploadSnapshot config);;
      log_Println "Snapshot upload completed."
  end.

Definition uploadMetadata (config : Config) : IO unit :=
  log_Println "Uploading metadata to FTPS...";;
  err ← uploadFile config (CsvOutputFile config)
          (Join (OutputDir config) "metadata.csv");
  match err with
  | Some err => log_Println ("Failed to upload metadata: " +:+ err)
  | None => log_Println "Metadata upload completed."
  end.

(** ** Reading a manifest back *)

(** Modelled from the spec: the states of the reader of the manifest, which
    [main.go] does not have (see [readFrom]). *)
Inductive ReaderState :=
| RecordStart   (** at the start of a line *)
| FieldStart    (** after a comma *)
| Unquoted      (** in a field that did not start with a quote *)
| Quoted        (** in a quoted field *)
| QuoteSeen     (** after a quote met in a quoted field *)
| CRSeen        (** after a carriage return that has to end the line *).

(** Modelled from the spec: the reader of the manifest.  [main.go] writes the
    manifest and never reads it; the specification has it re-parsed as
    standard delimited tabular text, its values quoted and escaped by the
    standard rules.  The reader below follows those rules: records end with a
    line feed or a carriage return and a line feed, fields are separated by
    commas, a field that starts with a quote runs to its closing quote, may
    hold commas and line breaks, and holds a quote for every doubled quote;
    a quote elsewhere is an error.

    [field] is the text of the field being read, [record] the fields of the
    line read so far, [rows] the records read so far. *)
Fixpoint readFrom (st : ReaderState) (field : string) (record : list string)
    (rows : list (list string)) (input : string) : option (list (list string)) :=
  match input with
  | EmptyString =>
      match st with
      | RecordStart => Some rows
      | FieldStart | Unquoted | QuoteSeen => Some (rows ++ [record ++ [field]])
      | Quoted | CRSeen => None
      end
  | String c input' =>
      match st with
      | RecordStart | FieldStart | Unquoted =>
          if bool_decide (c = commaChar)
          then readFrom FieldStart EmptyString (record ++ [field]) rows input'
          else if bool_decide (c = lfChar)
          then readFrom RecordStart EmptyString [] (rows ++ [record ++ [field]]) input'
          else if bool_decide (c = crChar)
          then readFrom CRSeen field record rows input'
          else if bool_decide (c = quoteChar)
          then match st with
               | Unquoted => None
               | _ => readFrom Quoted field record rows input'
               end
          else readFrom Unquoted (field +:+ String c EmptyString) record rows input'
      | Quoted =>
          if bool_decide (c = quoteChar)
          then readFrom QuoteSeen field record rows input'
          else readFrom Quoted (field +:+ String c EmptyString) record rows input'
      | QuoteSeen =>
          if bool_decide (c = quoteChar)
          then readFrom Quoted (field +:+ String c EmptyString) record rows input'
          else if bool_decide (c = commaChar)
          then readFrom FieldStart EmptyString (record ++ [field]) rows input'
          else if bool_decide (c = lfChar)
          then readFrom RecordStart EmptyString [] (rows ++ [record ++ [field]]) input'
          else if bool_decide (c = crChar)
          then readFrom CRSeen field record rows input'
          else None
      | CRSeen =>
          if bool_decide (c = lfChar)
          then readFrom RecordStart EmptyString [] (rows ++ [record ++ [field]]) input'
          else None
      end
  end.

(** Modelled from the spec: the records of a text, read from its start; no
    reader is in [main.go]. *)
Definition readAll (text : string) : option (list (list string)) :=
  readFrom RecordStart EmptyString [] [] text.

(** Modelled from the spec: the (filename, timestamp) pair of a manifest
    row, for the reader [main.go] does not have. *)
Definition rowPair (row : list string) : option (string * string) :=
  match row with
  | [name; time] => Some (name, time)
  | _ => None
  end.

(** Modelled from the spec: the pairs a manifest reads back as, the rows
    after the header row; no reader is in [main.go]. *)
Definition manifestPairs (text : string) : option (list (string * string)) :=
  match readAll text with
  | Some (header :: rows) =>
      if bool_decide (header = csvHeader) then mapM rowPair rows else None
  | _ => None
  end.

(** The text of the file [name], if it is a regular file. *)
Definition fileText (w : World) (name : string) : option string :=
  match files w !! name with
  | Some (Regular data _ _) => Some data
  | _ => None
  end.

(** ** The coordinator: the goroutines of [main] *)

Module Coordinator.

(** The five stage functions [main] calls in goroutines. *)
Inductive Stage :=
| GenerateTestVideo | GenerateSnapshots | GenerateMetadata
| UploadSnapshots | UploadMetadata.

(** The two channels of [main] (unbuffered, [make(chan bool)]). *)
Inductive Chan := testVideoDone | snapshotsDone.

(** The five [go func() { ... }()] statements of [main], in source order. *)
Inductive Goroutine :=
| VideoTask | SnapshotsTask | MetadataTask | UploadSnapshotsTask | UploadMetadataTask.

Inductive Thread := Main | Spawned (g : Goroutine).

Inductive Stmt :=
| Call (f : Stage)        (** a call of a stage function, not begun yet *)
| Running (f : Stage)     (** the call has begun and has not returned *)
| Send (c : Chan)         (** [c <- true] *)
| Recv (c : Chan)         (** [<-c] *)
| Go (g : Goroutine)      (** [go func() { ... }()] *)
| WgAdd (n : nat)         (** [wg.Add(n)] *)
| WgDone                  (** the deferred [wg.Done()] *)
| WgWait                  (** [wg.Wait()] *)
| SleepDuration           (** [time.Sleep] of the configured duration *)
| LogComplete             (** the last [log.Println] *).

#[global] Instance Stage_eq_dec : EqDecision Stage.
Proof. solve_decision. Defined.
#[global] Instance Chan_eq_dec : EqDecision Chan.
Proof. solve_decision. Defined.
#[global] Instance Goroutine_eq_dec : EqDecision Goroutine.
Proof. solve_decision. Defined.
#[global] Instance Thread_eq_dec : EqDecision Thread.
Proof. solve_decision. Defined.
#[global] Instance Stmt_eq_dec : EqDecision Stmt.
Proof. solve_decision. Defined.

(** The body of each goroutine. *)
Definition body (g : Goroutine) : list Stmt :=
  match g with
  | VideoTask => [Call GenerateTestVideo; Send testVideoDone]
  | SnapshotsTask => [Recv testVideoDone; Call GenerateSnapshots; Send snapshotsDone]
  | MetadataTask => [Recv snapshotsDone; Call GenerateMetadata]
  | UploadSnapshotsTask => [Call UploadSnapshots; WgDone]
  | UploadMetadataTask => [Call UploadMetadata; WgDone]
  end.

(** [main], from the creation of the channels to its return. *)
Definition mainBody : list Stmt :=
  [Go VideoTask; Go SnapshotsTask; Go MetadataTask; WgAdd 2;
   Go UploadSnapshotsTask; Go UploadMetadataTask; WgWait; SleepDuration;
   LogComplete].

(** What is left to run of each thread ([None]: not started), the counter of
    the wait group, and whether the process has exited. *)
Record State := mkState {
  code : Thread -> option (list Stmt);
  wg : nat;
  exited : bool
}.

Definition initial : State :=
  mkState (fun t => match t with Main => Some mainBody | Spawned _ => None end)
    0%nat false.

Definition setCode (t : Thread) (k : list Stmt) (s : State) : State :=
  mkState (<[t := Some k]> (code s)) (wg s) (exited s).

Definition setWg (n : nat) (s : State) : State :=
  mkState (code s) n (exited s).

(** What a step shows. *)
Inductive Action :=
| Begin (f : Stage)     (** a stage function is entered *)
| End (f : Stage)       (** a stage function returns *)
| Signal (c : Chan)     (** a send on [c] meets a receive on [c] *)
| Start (g : Goroutine) (** a goroutine is started *)
| Internal              (** a step of the wait group, the sleep, the log *)
| Exit                  (** [main] returns: the process ends *).

#[global] Instance Action_eq_dec : EqDecision Action.
Proof. solve_decision. Defined.

(** One step of the program: any started thread runs its next statement.  A
    send and a receive on an unbuffered channel complete together, in two
    distinct threads.  [wg.Wait()] passes when the counter is zero.  When
    [main] has nothing left to run the process exits, and nothing runs
    afterwards. *)
Inductive step : State -> Action -> State -> Prop :=
| step_call s t f k :
    exited s = false -> code s t = Some (Call f :: k) ->
    step s (Begin f) (setCode t (Running f :: k) s)
| step_return s t f k :
    exited s = false -> code s t = Some (Running f :: k) ->
    step s (End f) (setCode t k s)
| step_signal s t1 t2 c k1 k2 :
    exited s = false -> t1 <> t2 ->
    code s t1 = Some (Send c :: k1) -> code s t2 = Some (Recv c :: k2) ->
    step s (Signal c) (setCode t2 k2 (setCode t1 k1 s))
| step_go s t g k :
    exited s = false -> code s t = Some (Go g :: k) ->
    step s (Start g) (setCode (Spawned g) (body g) (setCode t k s))
| step_wg_add s t n k :
    exited s = false -> code s t = Some (WgAdd n :: k) ->
    step s Internal (setWg (wg s + n) (setCode t k s))
| step_wg_done s t k :
    exited s = false -> code s t = Some (WgDone :: k) ->
    step s Internal (setWg (wg s - 1) (setCode t k s))
| step_wg_wait s t k :
    exited s = false -> code s t = Some (WgWait :: k) -> wg s = 0%nat ->
    step s Internal (setCode t k s)
| step_sleep s t k :
    exited s = false -> code s t = Some (SleepDuration :: k) ->
    step s Internal (setCode t k s)
| step_log s t k :
    exited s = false -> code s t = Some (LogComplete :: k) ->
    step s Internal (setCode t k s)
| step_exit s :
    exited s = false -> code s Main = Some [] ->
    step s Exit (mkState (code s) (wg s) true).

(** The runs from a state, with the actions in the order they happened. *)
Inductive run (s0 : State) : list Action -> State -> Prop :=
| run_nil : run s0 [] s0
| run_step tr s a s' : run s0 tr s -> step s a s' -> run s0 (tr ++ [a]) s'.

(** In [tr], every [b] has an [a] before it. *)
Definition precedes (a b : Action) (tr : list Action) : Prop :=
  forall before after, tr = before ++ b :: after -> a ∈ before.

(** [a] happens at most once in [tr]. *)
Definition atMostOnce (a : Action) (tr : list Action) : Prop :=
  (length (filter (fun x => x = a) tr) <= 1)%nat.

(** *** The invariant of the runs

    What is left of each goroutine, with what the trace then holds.  Each
    goroutine runs its body once, from the front. *)

Definition videoOk (c : option (list Stmt)) (tr : list Action) : Prop :=
  (c = None /\ Signal testVideoDone ∉ tr) \/
  (c = Some [Call GenerateTestVideo; Send testVideoDone]
     /\ Signal testVideoDone ∉ tr) \/
  (c = Some [Running GenerateTestVideo; Send testVideoDone]
     /\ Signal testVideoDone ∉ tr) \/
  (c = Some [Send testVideoDone]
     /\ (Signal testVideoDone ∉ tr) /\ End GenerateTestVideo ∈ tr) \/
  c = Some [].

Definition snapshotsOk (c : option (list Stmt)) (tr : list Action) : Prop :=
  (c = None /\ Signal snapshotsDone ∉ tr) \/
  (c = Some [Recv testVideoDone; Call GenerateSnapshots; Send snapshotsDone]
     /\ Signal snapshotsDone ∉ tr) \/
  (c = Some [Call GenerateSnapshots; Send snapshotsDone]
     /\ (Signal snapshotsDone ∉ tr) /\ Signal testVideoDone ∈ tr) \/
  (c = Some [Running GenerateSnapshots; Send snapshotsDone]
     /\ Signal snapshotsDone ∉ tr) \/
  (c = Some [Send snapshotsDone]
     /\ (Signal snapshotsDone ∉ tr) /\ End GenerateSnapshots ∈ tr) \/
  c = Some [].

Definition metadataOk (c : option (list Stmt)) (tr : list Action) : Prop :=
  c = None \/
  c = Some [Recv snapshotsDone; Call GenerateMetadata] \/
  (c = Some [Call GenerateMetadata] /\ Signal snapshotsDone ∈ tr) \/
  c = Some [Running GenerateMetadata] \/
  c = Some [].

Definition uploadOk (f : Stage) (c : option (list Stmt)) : Prop :=
  c = None \/ c = Some [Call f; WgDone] \/ c = Some [Running f; WgDone] \/
  c = Some [WgDone] \/ c = Some [].

(** [main] is somewhere in its body, and the goroutines it has not started
    yet have not started. *)
Definition mainOk (s : State) : Prop :=
  exists done k,
    code s Main = Some k /\ mainBody = done ++ k /\
    forall g, Go g ∈ k -> code s (Spawned g) = None.

Definition invariant (s : State) (tr : list Action) : Prop :=
  mainOk s /\
  videoOk (code s (Spawned VideoTask)) tr /\
  snapshotsOk (code s (Spawned SnapshotsTask)) tr /\
  metadataOk (code s (Spawned MetadataTask)) tr /\
  uploadOk UploadSnapshots (code s (Spawned UploadSnapshotsTask)) /\
  uploadOk UploadMetadata (code s (Spawned UploadMetadataTask)).

(** What has to be in the trace before an action can happen. *)
Definition enabledAfter (a : Action) (tr : list Action) : Prop :=
  match a with
  | Signal testVideoDone =>
      End GenerateTestVideo ∈ tr /\ Signal testVideoDone ∉ tr
  | Begin GenerateSnapshots => Signal testVideoDone ∈ tr
  | Signal snapshotsDone =>
      End GenerateSnapshots ∈ tr /\ Signal snapshotsDone ∉ tr
  | Begin GenerateMetadata => Signal snapshotsDone ∈ tr
  | _ => True
  end.

(** The order of the stages in a trace: each stage has returned before
    its signal passes, each signal has passed before the next stage is
    entered, and each channel carries one signal at most. *)
Definition ordered (tr : list Action) : Prop :=
  precedes (End GenerateTestVideo) (Signal testVideoDone) tr /\
  precedes (Signal testVideoDone) (Begin GenerateSnapshots) tr /\
  precedes (End GenerateSnapshots) (Signal snapshotsDone) tr /\
  precedes (Signal snapshotsDone) (Begin GenerateMetadata) tr /\
  atMostOnce (Signal testVideoDone) tr /\
  atMostOnce (Signal snapshotsDone) tr.

(** The start of a run: the video goroutine runs to its send, the snapshots
    goroutine receives and enters its stage. *)
Definition sampleRun : list Action :=
  [Start VideoTask; Begin GenerateTestVideo; End GenerateTestVideo;
   Start SnapshotsTask; Signal testVideoDone; Begin GenerateSnapshots].

End Coordinator.

(** ** The wait group and the length of the runs *)

Module Scheduling.
Import Coordinator.

(** A goroutine that has not run to its end counts for one in the wait
    group. *)
Definition pending (c : option (list Stmt)) : nat :=
  match c with Some [] => 0 | _ => 1 end.

(** An upload goroutine that is past its call has its stage returned. *)
Definition returned (f : Stage) (c : option (list Stmt)) (tr : list Action) : Prop :=
  c = Some [WgDone] \/ c = Some [] -> End f ∈ tr.

(** Where [main] is in its body, with what the wait group and the upload
    goroutines are by then: the counter is zero before [wg.Add(2)] and counts
    the upload goroutines still to finish after it; both have finished once
    [wg.Wait()] is passed. *)
Definition barrier (s : State) (tr : list Action) : Prop :=
  exists n,
    (n <= 9)%nat /\
    code s Main = Some (drop n mainBody) /\
    (n <= 3 -> wg s = 0 /\ code s (Spawned UploadSnapshotsTask) = None
                        /\ code s (Spawned UploadMetadataTask) = None)%nat /\
    (4 <= n -> wg s = pending (code s (Spawned UploadSnapshotsTask))
                      + pending (code s (Spawned UploadMetadataTask)))%nat /\
    (5 <= n -> code s (Spawned UploadSnapshotsTask) <> None)%nat /\
    (6 <= n -> code s (Spawned UploadMetadataTask) <> None)%nat /\
    (7 <= n -> code s (Spawned UploadSnapshotsTask) = Some []
               /\ code s (Spawned UploadMetadataTask) = Some [])%nat /\
    returned UploadSnapshots (code s (Spawned UploadSnapshotsTask)) tr /\
    returned UploadMetadata (code s (Spawned UploadMetadataTask)) tr.

(** The actions a statement still stands for: a call begins and returns, a
    send is one signal with its receive, a [go] statement starts the
    goroutine and stands for its body too. *)
Definition ownCost (x : Stmt) : nat :=
  match x with
  | Call _ => 2
  | Recv _ | Go _ => 0
  | _ => 1
  end.

Definition stmtCost (x : Stmt) : nat :=
  match x with
  | Go g => 1 + sum_list (ownCost <$> body g)
  | _ => ownCost x
  end.

Definition threadCost (s : State) (t : Thread) : nat :=
  match code s t with
  | Some k => sum_list (stmtCost <$> k)
  | None => 0
  end.

(** The actions left to a state: those of its threads, and the exit. *)
Definition measure (s : State) : nat :=
  (if exited s then 0 else 1) +
  (threadCost s Main + threadCost s (Spawned VideoTask)
   + threadCost s (Spawned SnapshotsTask) + threadCost s (Spawned MetadataTask)
   + threadCost s (Spawned UploadSnapshotsTask)
   + threadCost s (Spawned UploadMetadataTask)).

(** A run in which the uploads and [main] go first: both upload stages
    return, [main] passes the wait group, sleeps, logs and exits, and no
    generation stage has begun. *)
Definition uploadsFirst : list Action :=
  [Start VideoTask; Start SnapshotsTask; Start MetadataTask; Internal;
   Start UploadSnapshotsTask; Start UploadMetadataTask;
   Begin UploadSnapshots; End UploadSnapshots; Internal;
   Begin UploadMetadata; End UploadMetadata; Internal;
   Internal; Internal; Internal; Exit].

End Scheduling.

(** ** Observations on traces *)

Definition isDial (e : Event) : bool :=
  match e with Dial _ _ => true | _ => false end.

Definition isSleep (e : Event) : bool :=
  match e with Sleep _ => true | _ => false end.

Definition isOpen (e : Event) : bool :=
  match e with Open _ => true | _ => false end.

Definition count (p : Event -> bool) (tr : list Event) : nat :=
  length (filter (fun e => p e = true) tr).

(** The connect attempts and the sleeps of a trace. *)
Definition dialAttempts (tr : list Event) : nat := count isDial tr.
Definition sleeps (tr : list Event) : nat := count isSleep tr.

(** The world after more events. *)
Definition addEvents (w : World) (tr : list Event) : World :=
  mkWorld (env w) (files w) (dials w) (events w ++ tr).


(** The [k]-th connect attempt to [addr] fails: [Dial] fails, or [Login] on
    the connection it opened does. *)
Definition attemptFails (e : Env) (addr : string) (k : nat) : Prop :=
  is_Some (dialOutcome e k) \/ is_Some (loginOutcome e (mkServerConn addr k)).

(** [Dial] and [Login] both succeed at the [k]-th attempt. *)
Definition attemptSucceeds (e : Env) (addr : string) (k : nat) : Prop :=
  dialOutcome e k = None /\ loginOutcome e (mkServerConn addr k) = None.

(** ** What the manifest holds *)

(** The record [generateMetadata] appends for [file]: none when [os.Stat]
    fails on it. *)
Definition manifestRow (fs : gmap string Node) (file : string) : option (list string) :=
  match fs !! file with
  | Some (Regular _ modTime _) => Some [Base file; modTime]
  | _ => None
  end.

(** The (filename, timestamp) pair [generateMetadata] collects for
    [file]. *)
Definition manifestPair (fs : gmap string Node) (file : string) : option (string * string) :=
  match fs !! file with
  | Some (Regular _ modTime _) => Some (Base file, modTime)
  | _ => None
  end.

(** The trace of the deferred close of the manifest file. *)
Definition closeTrace (e : Env) (name : string) : list Event :=
  Close name ::
  match closeOutcome e name with
  | Some err => [Log ("Failed to close metadata file: " +:+ err)]
  | None => []
  end.

(** The manifest row of a pair. *)
Definition pairRow (p : string * string) : list string := [p.1; p.2].

(** The line [generateMetadata] logs for [file] when [os.Stat] fails on
    it. *)
Definition statFailure (fs : gmap string Node) (file : string) : option Event :=
  match fs !! file with
  | Some (Regular _ _ _) => None
  | _ =>
      Some (Log ("Failed to retrieve file info for '" +:+ file +:+ "': "
                   +:+ "stat " +:+ file +:+ ": no such file or directory"))
  end.

(** [%03d] of ffmpeg's output pattern. *)
Definition pad3 (k : nat) : string :=
  let digits := pretty k in
  String.string_of_list_ascii (replicate (3 - String.length digits) "0"%char)
    +:+ digits.

(** The name of the [k]-th snapshot [generateSnapshots] has ffmpeg write,
    [snapshot%03d.jpg]. *)
Definition snapshotName (k : nat) : string := "snapshot" +:+ pad3 k +:+ ".jpg".

(** The states in which the reader is at the start of a field. *)
Definition atFieldStart (st : ReaderState) : Prop :=
  st = RecordStart \/ st = FieldStart.

(** The states in which a comma or a line feed ends the field. *)
Definition fieldCanEnd (st : ReaderState) : Prop :=
  st = RecordStart \/ st = FieldStart \/ st = Unquoted \/ st = QuoteSeen.

(** ** Further observations on traces *)

Definition isStor (e : Event) : bool :=
  match e with Stor _ _ _ => true | _ => false end.

Definition isClose (e : Event) : bool :=
  match e with Close _ => true | _ => false end.

(** The sleeps and the stores of a trace, in order. *)
Definition sleepsOf (tr : list Event) : list Event :=
  filter (fun e => isSleep e = true) tr.
Definition storsOf (tr : list Event) : list Event :=
  filter (fun e => isStor e = true) tr.

(** [os.Open] succeeds on [name]. *)
Definition opens (fs : gmap string Node) (name : string) : bool :=
  match fs !! name with
  | Some (Regular _ _ true) => true
  | _ => false
  end.

(** The store [uploadSnapshots] makes for the snapshot [file]: its contents,
    under its base name in the upload directory; none when the file does
    not open. *)
Definition storOf (config : Config) (c : ServerConn) (fs : gmap string Node)
    (file : string) : option Event :=
  match fs !! file with
  | Some (Regular data _ true) =>
      Some (Stor c (Join (OutputDir config) (Base file)) data)
  | _ => None
  end.

(** The pacing sleep of [uploadSnapshots]. *)
Definition pacing (config : Config) : Z := wrap64 (Millisecond * Interval config).

(** ** Sample configurations and worlds *)

Definition sampleConfig : Config :=
  mkConfig "640x480" 25 2 "tester" "secret" "127.0.0.1" 21 "/uploads"
    "out/test.mp4" "out/snapshots" "out/video" "out/metadata.csv"
    1 3 2 None.


(** A healthy environment: the network and the disk answer every call with
    success. *)
Definition healthy : Env :=
  mkEnv (fun _ => None) (fun _ => None) (fun _ => None) (fun _ _ => None)
    (fun _ => None) (fun _ => None) (fun _ => None)
    "2023-06-14 10:00:09 +0300 EEST".

(** No server listens: every [Dial] is refused. *)
Definition refusing : Env :=
  mkEnv (fun _ => None) (fun _ => Some "connection refused") (fun _ => None)
    (fun _ _ => None) (fun _ => None) (fun _ => None) (fun _ => None)
    "2023-06-14 10:00:09 +0300 EEST".

(** The server comes up after the first [Dial]. *)
Definition lateServer : Env :=
  mkEnv (fun _ => None)
    (fun k => if bool_decide (k = 0%nat) then Some "connection refused" else None)
    (fun _ => None) (fun _ _ => None) (fun _ => None) (fun _ => None)
    (fun _ => None) "2023-06-14 10:00:09 +0300 EEST".

Definition emptyWorld (e : Env) : World := mkWorld e ∅ 0 [].

(** A snapshot directory with three snapshots. *)
Definition threeSnapshots : gmap string Node :=
  {[ "out/snapshots/snapshot002.jpg" := Regular "jpeg 2" "2023-06-14 10:00:02 +0300 EEST" true;
     "out/snapshots/snapshot001.jpg" := Regular "jpeg 1" "2023-06-14 10:00:01 +0300 EEST" true;
     "out/snapshots/snapshot003.jpg" := Regular "jpeg 3" "2023-06-14 10:00:03 +0300 EEST" true;
     "out/test.mp4" := Regular "mp4" "2023-06-14 10:00:00 +0300 EEST" true ]}.

(** The same directory, the second snapshot replaced by a dangling link. *)
Definition brokenSnapshot : gmap string Node :=
  <["out/snapshots/snapshot002.jpg" := Dangling]> threeSnapshots.

Definition connectedConfig : Config :=
  setFTPConn sampleConfig (mkServerConn "127.0.0.1:21" 0).

Definition snapshotWorld : World := mkWorld healthy threeSnapshots 0 [].
Definition brokenWorld : World := mkWorld healthy brokenSnapshot 0 [].

(** The disk fails when a file is closed. *)
Definition failingClose : Env :=
  mkEnv (fun _ => None) (fun _ => None) (fun _ => None) (fun _ _ => None)
    (fun _ => None) (fun _ => None) (fun _ => Some "input/output error")
    "2023-06-14 10:00:09 +0300 EEST".

Definition failingCloseWorld : World := mkWorld failingClose threeSnapshots 0 [].

(** [sampleConfig] with no attempt allowed. *)
Definition configNoRetry : Config :=
  mkConfig "640x480" 25 2 "tester" "secret" "127.0.0.1" 21 "/uploads"
    "out/test.mp4" "out/snapshots" "out/video" "out/metadata.csv"
    1 0 2 None.

(** The server accepts connections and rejects the credentials. *)
Definition rejecting : Env :=
  mkEnv (fun _ => None) (fun _ => None) (fun _ => Some "530 Login incorrect")
    (fun _ _ => None) (fun _ => None) (fun _ => None) (fun _ => None)
    "2023-06-14 10:00:09 +0300 EEST".

(** The server refuses every store, and the disk fails on close. *)
Definition failingStore : Env :=
  mkEnv (fun _ => None) (fun _ => None) (fun _ => None)
    (fun _ _ => Some "552 Storage allocation exceeded") (fun _ => None)
    (fun _ => None) (fun _ => Some "input/output error")
    "2023-06-14 10:00:09 +0300 EEST".

Definition failingStoreWorld : World := mkWorld failingStore threeSnapshots 0 [].

(** The manifest file cannot be created. *)
Definition readOnlyDisk : Env :=
  mkEnv (fun _ => None) (fun _ => None) (fun _ => None) (fun _ _ => None)
    (fun _ => Some "open out/metadata.csv: read-only file system")
    (fun _ => None) (fun _ => None) "2023-06-14 10:00:09 +0300 EEST".

(** A snapshot directory in which every entry is a dangling link. *)
Definition onlyDangling : gmap string Node :=
  {[ "out/snapshots/snapshot001.jpg" := Dangling;
     "out/snapshots/snapshot002.jpg" := Dangling ]}.

(** * Theorems *)

(** ** The model at work *)

Example Base_examples :
  Base "out/snapshots/snapshot001.jpg" = "snapshot001.jpg" /\
  Base "a/b//" = "b" /\ Base EmptyString = "." /\ Base "///" = "/".
Proof. by vm_compute. Qed.

Example snapshotName_examples :
  snapshotName 7 = "snapshot007.jpg" /\ snapshotName 1234 = "snapshot1234.jpg".
Proof. by vm_compute. Qed.

Example glob_sorts_and_filters :
  Readdirnames "out/snapshots" threeSnapshots
    = ["snapshot003.jpg"; "snapshot001.jpg"; "snapshot002.jpg"] /\
  snapshotPaths "out/snapshots" threeSnapshots
    = ["out/snapshots/snapshot001.jpg"; "out/snapshots/snapshot002.jpg";
       "out/snapshots/snapshot003.jpg"] /\
  snapshotPaths "out" threeSnapshots = [].
Proof. by vm_compute. Qed.

(** A field with a comma or a quote is quoted, its quotes doubled; a field
    that starts with a space is quoted too. *)
Example writeField_examples :
  writeField "Creation Time" = "Creation Time" /\
  writeField "a,b" = String quoteChar ("a,b" +:+ String quoteChar EmptyString) /\
  writeField (String quoteChar "x")
    = String quoteChar (String quoteChar (String quoteChar
        ("x" +:+ String quoteChar EmptyString))) /\
  writeField " x" = String quoteChar (" x" +:+ String quoteChar EmptyString).
Proof. by vm_compute. Qed.

(** The reader on a line with a quoted field, and on a quote in the middle
    of an unquoted field. *)
Example readAll_examples :
  readAll ("x," +:+ String quoteChar ("y,z" +:+ String quoteChar
             (String crChar (String lfChar "last")))) = Some [["x"; "y,z"]; ["last"]] /\
  readAll ("x" +:+ String quoteChar "y") = None.
Proof. by vm_compute. Qed.

Example generateMetadata_on_three_snapshots :
  fileText (finalWorld (generateMetadata sampleConfig) snapshotWorld)
    "out/metadata.csv"
  = Some "Filename,Creation Time
snapshot001.jpg,2023-06-14 10:00:01 +0300 EEST
snapshot002.jpg,2023-06-14 10:00:02 +0300 EEST
snapshot003.jpg,2023-06-14 10:00:03 +0300 EEST
".
Proof. by vm_compute. Qed.

Example generateMetadata_with_a_dangling_link :
  events (finalWorld (generateMetadata sampleConfig) brokenWorld) =
    [Log "Generating metadata...";
     Log "Failed to retrieve file info for 'out/snapshots/snapshot002.jpg': stat out/snapshots/snapshot002.jpg: no such file or directory";
     Create "out/metadata.csv";
     Write "out/metadata.csv" "Filename,Creation Time
snapshot001.jpg,2023-06-14 10:00:01 +0300 EEST
snapshot003.jpg,2023-06-14 10:00:03 +0300 EEST
";
     Log "Metadata generation completed.";
     Close "out/metadata.csv"].
Proof. by vm_compute. Qed.

Example uploadSnapshots_with_a_dangling_link :
  events (finalWorld (uploadSnapshots connectedConfig) brokenWorld) =
    let c := mkServerConn "127.0.0.1:21" 0 in
    [Log "Uploading snapshots to FTPS...";
     Open "out/snapshots/snapshot001.jpg";
     Stor c "/uploads/snapshot001.jpg" "jpeg 1";
     Close "out/snapshots/snapshot001.jpg";
     Log "Uploaded snapshot file 'out/snapshots/snapshot001.jpg'";
     Sleep 1000000;
     Open "out/snapshots/snapshot002.jpg";
     Log "Failed to upload snapshot file 'out/snapshots/snapshot002.jpg': open out/snapshots/snapshot002.jpg: no such file or directory";
     Sleep 1000000;
     Open "out/snapshots/snapshot003.jpg";
     Stor c "/uploads/snapshot003.jpg" "jpeg 3";
     Close "out/snapshots/snapshot003.jpg";
     Log "Uploaded snapshot file 'out/snapshots/snapshot003.jpg'";
     Sleep 1000000;
     Log "Snapshot upload completed."].
Proof. by vm_compute. Qed.

(** Without a connection, the first file that opens makes [Stor] panic:
    the deferred close runs, nothing else does. *)
Example uploadSnapshots_without_connection :
  uploadSnapshots sampleConfig snapshotWorld =
    (Panics "invalid memory address or nil pointer dereference",
     addEvents snapshotWorld
       [Log "Uploading snapshots to FTPS...";
        Open "out/snapshots/snapshot001.jpg";
        Close "out/snapshots/snapshot001.jpg"]).
Proof. by vm_compute. Qed.

Example establish_with_a_late_server :
  events (finalWorld (establishFTPConnection sampleConfig) (emptyWorld lateServer)) =
    [Dial "127.0.0.1:21" 5000000000;
     Log "Failed to establish FTP connection, attempt 1/3: connection refused";
     Sleep 2;
     Dial "127.0.0.1:21" 5000000000;
     Login (mkServerConn "127.0.0.1:21" 1) "tester" "secret"].
Proof. by vm_compute. Qed.

(** ** Connection establishment *)

Lemma count_app p tr1 tr2 : count p (tr1 ++ tr2) = (count p tr1 + count p tr2)%nat.
Proof. unfold count. by rewrite filter_app, length_app. Qed.

Lemma count_cons p e tr :
  count p (e :: tr) = ((if p e then 1 else 0) + count p tr)%nat.
Proof.
  unfold count. rewrite filter_cons.
  destruct (p e); case_decide; done.
Qed.

Lemma count_nil p : count p [] = 0%nat.
Proof. done. Qed.

(** The structural argument of [connectLoop] is the guard of the [for]
    loop. *)
Lemma connectLoop_guard (config : Config) (i : Z) :
  0 <= i ->
  (Z.to_nat (MaxRetries config - i) = 0%nat <-> ~ i < MaxRetries config) /\
  (i < MaxRetries config ->
   Z.to_nat (MaxRetries config - i) = S (Z.to_nat (MaxRetries config - (i + 1)))).
Proof. intros Hi. split; [split|]; lia. Qed.

Ltac io_step :=
  unfold mbind, IO_bind, mret, IO_ret, log_Println, time_Sleep, emit, ftp_Dial,
    ftp_Login; cbn [env files dials events].

(** When every [Dial] fails, the loop runs [remaining] times and reports
    exhaustion. *)
Lemma connectLoop_all_dials_fail remaining : forall i addr config w,
  (forall k, (dials w <= k < dials w + remaining)%nat ->
             is_Some (dialOutcome (env w) k)) ->
  exists tr,
    connectLoop remaining i addr config w =
      (Returns (config, Some (attemptsExhausted config)),
       mkWorld (env w) (files w) (dials w + remaining) (events w ++ tr)) /\
    dialAttempts tr = remaining /\ sleeps tr = remaining.
Proof.
  induction remaining as [|n IH]; intros i addr config w Hfail.
  - exists []. destruct w. cbn. rewrite Nat.add_0_r, app_nil_r. done.
  - destruct (Hfail (dials w)) as [err Herr]; [lia|].
    cbn [connectLoop]. io_step. rewrite Herr. cbn [env files dials events].
    edestruct (IH (i + 1) addr config) as (tr & -> & Hd & Hs); cycle 1.
    + eexists (_ :: _ :: _ :: tr). cbn [env files dials events]. split.
      * rewrite <- !app_assoc. cbn [app].
        by replace (S (dials w) + n)%nat with (dials w + S n)%nat by lia.
      * unfold dialAttempts, sleeps in *. rewrite !count_cons, Hd, Hs. done.
    + cbn [env files dials events]. intros k Hk. apply Hfail. lia.
Qed.

(** C1. When the configuration asks for N >= 1 attempts and every call of
    [ftp.Dial] fails, [establishFTPConnection] dials exactly N times and
    returns the error [failed to establish FTP connection after N attempts];
    the configuration keeps its (absent) connection. *)
Theorem establish_exhausts_all_attempts (config : Config) (w : World) :
  1 <= MaxRetries config ->
  (forall k, (dials w <= k < dials w + Z.to_nat (MaxRetries config))%nat ->
             is_Some (dialOutcome (env w) k)) ->
  exists tr w',
    establishFTPConnection config w =
      (Returns (config,
                Some ("failed to establish FTP connection after "
                        +:+ itoa (MaxRetries config) +:+ " attempts")), w') /\
    events w' = events w ++ tr /\
    Z.of_nat (dialAttempts tr) = MaxRetries config.
Proof.
  intros HN Hfail. unfold establishFTPConnection.
  rewrite Z.sub_0_r.
  destruct (connectLoop_all_dials_fail (Z.to_nat (MaxRetries config)) 0
              (FTPHost config +:+ ":" +:+ itoa (FTPPort config)) config w Hfail)
    as (tr & Hrun & Hd & _).
  exists tr. eexists. split; [exact Hrun|]. split; [done|]. lia.
Qed.

Lemma establish_exhausts_all_attempts_witness :
  exists tr w',
    establishFTPConnection sampleConfig (emptyWorld refusing) =
      (Returns (sampleConfig,
                Some ("failed to establish FTP connection after "
                        +:+ itoa (MaxRetries sampleConfig) +:+ " attempts")), w') /\
    events w' = events (emptyWorld refusing) ++ tr /\
    Z.of_nat (dialAttempts tr) = MaxRetries sampleConfig.
Proof.
  apply (establish_exhausts_all_attempts sampleConfig (emptyWorld refusing)).
  - simpl. lia.
  - intros k _. simpl. eauto.
Defined.

(** A failed attempt: a [Dial], a [Login] when the [Dial] succeeded, the
    log line, the sleep of the retry interval; then the loop goes on. *)
Lemma connectLoop_failed_attempt remaining i addr config w :
  attemptFails (env w) addr (dials w) ->
  exists tr,
    connectLoop (S remaining) i addr config w =
      connectLoop remaining (i + 1) addr config
        (mkWorld (env w) (files w) (S (dials w)) (events w ++ tr)) /\
    dialAttempts tr = 1%nat /\ sleeps tr = 1%nat /\
    last tr = Some (Sleep (RetryInterval config)).
Proof.
  intros Hfail. cbn [connectLoop]. io_step.
  destruct (dialOutcome (env w) (dials w)) as [err|] eqn:Hdial;
    cbn [env files dials events].
  - eexists [_; _; _]. rewrite <- !app_assoc. done.
  - destruct Hfail as [[? ?]|[err Herr]]; [congruence|].
    rewrite Herr. cbn [env files dials events].
    eexists [_; _; _; _]. rewrite <- !app_assoc. done.
Qed.

(** When the first [n] attempts fail and the next one succeeds, the loop
    ends with that attempt: the trace is what the [n] failed attempts left,
    then the [Dial] and the [Login] that succeeded. *)
Lemma connectLoop_first_success n : forall remaining i addr config w,
  (n < remaining)%nat ->
  (forall j, (j < n)%nat -> attemptFails (env w) addr (dials w + j)) ->
  attemptSucceeds (env w) addr (dials w + n) ->
  exists tr,
    let c := mkServerConn addr (dials w + n) in
    connectLoop remaining i addr config w =
      (Returns (setFTPConn config c, None),
       mkWorld (env w) (files w) (S (dials w + n))
         (events w ++ tr ++ [Dial addr connectionTimeout;
                             Login c (FTPUser config) (FTPPassword config)])) /\
    dialAttempts tr = n /\ sleeps tr = n.
Proof.
  induction n as [|n IH]; intros remaining i addr config w Hlt Hfail Hok;
    (destruct remaining as [|remaining]; [lia|]).
  - exists []. destruct Hok as [Hdial Hlogin]. rewrite Nat.add_0_r in *.
    cbn [connectLoop]. io_step. rewrite Hdial. cbn [env files dials events].
    rewrite Hlogin. rewrite <- app_assoc. done.
  - pose proof (Hfail 0%nat ltac:(lia)) as Hfirst. rewrite Nat.add_0_r in Hfirst.
    destruct (connectLoop_failed_attempt remaining i addr config w Hfirst)
      as (tr1 & -> & Hd1 & Hs1 & _).
    edestruct (IH remaining (i + 1) addr config) as (tr & -> & Hd & Hs); cycle 3.
    + cbn [env files dials events].
      replace (S (dials w) + n)%nat with (dials w + S n)%nat by lia.
      exists (tr1 ++ tr). rewrite <- !app_assoc. split; [done|].
      unfold dialAttempts, sleeps in *. rewrite !count_app. lia.
    + lia.
    + cbn [env files dials events]. intros j Hj.
      replace (S (dials w) + j)%nat with (dials w + S j)%nat by lia.
      apply Hfail. lia.
    + cbn [env files dials events].
      by replace (S (dials w) + n)%nat with (dials w + S n)%nat by lia.
Qed.

(** C2. When the attempts before the K-th fail and the K-th finds both
    [Dial] and [Login] succeeding (1 <= K <= N), [establishFTPConnection]
    returns [nil] with the connection of that attempt stored in the
    configuration; it has dialled exactly K times and slept K-1 times, and
    the successful [Dial] and [Login] are the last things it did: no attempt
    and no sleep follow them. *)
Theorem establish_stops_at_first_success (config : Config) (w : World) (K : nat) :
  (1 <= K)%nat -> Z.of_nat K <= MaxRetries config ->
  (forall j, (j < K - 1)%nat ->
             attemptFails (env w) (ftpAddr config) (dials w + j)) ->
  attemptSucceeds (env w) (ftpAddr config) (dials w + (K - 1)) ->
  exists tr w',
    let c := mkServerConn (ftpAddr config) (dials w + (K - 1)) in
    let success := [Dial (ftpAddr config) connectionTimeout;
                    Login c (FTPUser config) (FTPPassword config)] in
    establishFTPConnection config w = (Returns (setFTPConn config c, None), w') /\
    FTPConn (setFTPConn config c) = Some c /\
    events w' = events w ++ tr ++ success /\
    dialAttempts (tr ++ success) = K /\
    sleeps (tr ++ success) = (K - 1)%nat.
Proof.
  intros HK HN Hfail Hok. unfold establishFTPConnection. fold (ftpAddr config).
  destruct (connectLoop_first_success (K - 1)
              (Z.to_nat (MaxRetries config - 0)) 0 (ftpAddr config) config w)
    as (tr & Hrun & Hd & Hs); [lia|done|done|].
  exists tr. eexists. cbn zeta in *.
  split; [exact Hrun|]. split; [done|]. split; [done|].
  unfold dialAttempts, sleeps in *. rewrite !count_app, !count_cons, count_nil.
  cbn. lia.
Qed.

Lemma establish_stops_at_first_success_witness :
  exists tr w',
    let c := mkServerConn (ftpAddr sampleConfig) (dials (emptyWorld lateServer) + (2 - 1)) in
    let success := [Dial (ftpAddr sampleConfig) connectionTimeout;
                    Login c (FTPUser sampleConfig) (FTPPassword sampleConfig)] in
    establishFTPConnection sampleConfig (emptyWorld lateServer)
      = (Returns (setFTPConn sampleConfig c, None), w') /\
    FTPConn (setFTPConn sampleConfig c) = Some c /\
    events w' = events (emptyWorld lateServer) ++ tr ++ success /\
    dialAttempts (tr ++ success) = 2%nat /\
    sleeps (tr ++ success) = (2 - 1)%nat.
Proof.
  apply (establish_stops_at_first_success sampleConfig (emptyWorld lateServer) 2).
  - lia.
  - simpl. lia.
  - intros j Hj. left. replace j with 0%nat by lia. simpl. eauto.
  - split; reflexivity.
Defined.




(** ** Uploads *)

Ltac io_unfold :=
  unfold mbind, IO_bind, mret, IO_ret, log_Println, time_Sleep, emit,
    os_Open, file_Close, ftp_Stor, os_Stat, os_Create, csv_WriteAll, file_Write,
    filepath_Glob, withEvent, withFile, panic;
  cbn [env files dials events fileName fileData].

Lemma addEvents_addEvents w tr1 tr2 :
  addEvents (addEvents w tr1) tr2 = addEvents w (tr1 ++ tr2).
Proof. unfold addEvents. cbn. by rewrite app_assoc. Qed.






(** C10. When the local file opens and [Stor] succeeds but [Close] fails,
    [uploadFile] returns the error of [Close], although the trace shows the
    store was made. *)
Theorem uploadFile_returns_close_error
    (config : Config) (c : ServerConn) (source target : string) (w : World)
    (data modTime : string) (closeErr : error) :
  files w !! source = Some (Regular data modTime true) ->
  FTPConn config = Some c ->
  storOutcome (env w) c target = None ->
  closeOutcome (env w) source = Some closeErr ->
  uploadFile config source target w =
    (Returns (Some closeErr),
     addEvents w [Open source; Stor c target data; Close source]).
Proof.
  intros Hfile Hc Hstor Hclose. unfold uploadFile, addEvents. rewrite Hc.
  io_unfold. rewrite Hfile. cbn [env files dials events fileName fileData].
  rewrite Hclose, Hstor. cbn [env files dials events].
  rewrite <- !app_assoc. done.
Qed.

Lemma uploadFile_returns_close_error_witness :
  uploadFile connectedConfig "out/snapshots/snapshot001.jpg"
      "/uploads/snapshot001.jpg" failingCloseWorld =
    (Returns (Some "input/output error"),
     addEvents failingCloseWorld
       [Open "out/snapshots/snapshot001.jpg";
        Stor (mkServerConn "127.0.0.1:21" 0) "/uploads/snapshot001.jpg" "jpeg 1";
        Close "out/snapshots/snapshot001.jpg"]).
Proof.
  apply (uploadFile_returns_close_error connectedConfig
           (mkServerConn "127.0.0.1:21" 0) "out/snapshots/snapshot001.jpg"
           "/uploads/snapshot001.jpg" failingCloseWorld "jpeg 1"
           "2023-06-14 10:00:01 +0300 EEST" "input/output error");
    reflexivity.
Defined.

(** ** The manifest: writing and reading back *)

Lemma string_app_cons (c : ascii) (s1 s2 : string) :
  String c s1 +:+ s2 = String c (s1 +:+ s2).
Proof. reflexivity. Qed.

Lemma string_app_nil_l (s : string) : EmptyString +:+ s = s.
Proof. reflexivity. Qed.

Lemma string_app_nil_r (s : string) : s +:+ EmptyString = s.
Proof.
  induction s as [|c s IH]; [done|]. by rewrite string_app_cons, IH.
Qed.

Lemma string_app_assoc (s1 s2 s3 : string) :
  (s1 +:+ s2) +:+ s3 = s1 +:+ (s2 +:+ s3).
Proof.
  induction s1 as [|c s1 IH]; [done|]. by rewrite !string_app_cons, IH.
Qed.

Lemma string_snoc_app (s1 s2 : string) (c : ascii) :
  (s1 +:+ String c EmptyString) +:+ s2 = s1 +:+ String c s2.
Proof. by rewrite string_app_assoc. Qed.

Lemma readFrom_comma st field record rows rest :
  fieldCanEnd st ->
  readFrom st field record rows (String commaChar rest) =
    readFrom FieldStart EmptyString (record ++ [field]) rows rest.
Proof. unfold fieldCanEnd. intros [->|[->|[->| ->]]]; reflexivity. Qed.

Lemma readFrom_lf st field record rows rest :
  fieldCanEnd st ->
  readFrom st field record rows (String lfChar rest) =
    readFrom RecordStart EmptyString [] (rows ++ [record ++ [field]]) rest.
Proof. unfold fieldCanEnd. intros [->|[->|[->| ->]]]; reflexivity. Qed.

(** A run of characters that need no quoting is read as it is. *)
Lemma readFrom_plain text : forall st field record rows rest,
  containsSpecial text = false ->
  st = RecordStart \/ st = FieldStart \/ st = Unquoted ->
  exists st',
    fieldCanEnd st' /\
    readFrom st field record rows (text +:+ rest) =
      readFrom st' (field +:+ text) record rows rest.
Proof.
  induction text as [|c text IH]; intros st field record rows rest Hplain Hst.
  - exists st. rewrite string_app_nil_r. split; [|done].
    unfold fieldCanEnd. tauto.
  - cbn [containsSpecial] in Hplain. apply orb_false_iff in Hplain as [Hc Hplain].
    unfold isSpecial in Hc. rewrite !orb_false_iff in Hc.
    destruct Hc as [[[Hlf Hcr] Hq] Hcomma].
    destruct (IH Unquoted (field +:+ String c EmptyString) record rows rest Hplain)
      as (st' & Hst' & Hread); [tauto|].
    exists st'. split; [done|].
    rewrite string_app_cons. rewrite string_snoc_app in Hread. rewrite <- Hread.
    destruct Hst as [->|[->| ->]]; cbn [readFrom];
      by rewrite Hlf, Hcr, Hq, Hcomma.
Qed.

(** The body of a quoted field, up to its closing quote, is read as the
    field it was written from. *)
Lemma readFrom_escaped text : forall field record rows rest,
  readFrom Quoted field record rows (escapeField text +:+ String quoteChar rest) =
    readFrom QuoteSeen (field +:+ text) record rows rest.
Proof.
  induction text as [|c text IH]; intros field record rows rest.
  - by rewrite string_app_nil_r.
  - cbn [escapeField]. case_bool_decide as Hc.
    + subst c. rewrite !string_app_cons. cbn [readFrom].
      rewrite bool_decide_eq_true_2 by done.
      by rewrite IH, string_snoc_app.
    + rewrite string_app_cons. cbn [readFrom].
      rewrite bool_decide_eq_false_2 by done.
      by rewrite IH, string_snoc_app.
Qed.

Lemma fieldNeedsQuotes_false field :
  fieldNeedsQuotes field = false -> containsSpecial field = false.
Proof.
  unfold fieldNeedsQuotes. repeat case_bool_decide; subst; try done.
  by destruct (containsSpecial field).
Qed.

(** A written field is read back: the reader ends where a comma or a line
    feed ends the field, with the field's text. *)
Lemma readFrom_writeField st field record rows rest :
  atFieldStart st ->
  exists st',
    fieldCanEnd st' /\
    readFrom st EmptyString record rows (writeField field +:+ rest) =
      readFrom st' field record rows rest.
Proof.
  intros Hst. unfold writeField.
  destruct (fieldNeedsQuotes field) eqn:Hq.
  - exists QuoteSeen. split; [unfold fieldCanEnd; tauto|].
    rewrite string_app_cons, string_app_assoc, string_app_cons, string_app_nil_l.
    pose proof (readFrom_escaped field EmptyString record rows rest) as Hread.
    rewrite string_app_nil_l in Hread. rewrite <- Hread.
    by destruct Hst as [-> | ->].
  - apply fieldNeedsQuotes_false in Hq.
    destruct (readFrom_plain field st EmptyString record rows rest Hq)
      as (st' & Hst' & Hread); [unfold atFieldStart in Hst; tauto|].
    rewrite string_app_nil_l in Hread. by exists st'.
Qed.

(** The rest of a line, from a field on. *)
Lemma readFrom_writeFields fields : forall st field record rows rest,
  atFieldStart st ->
  readFrom st EmptyString record rows
      (writeField field +:+ writeFields false fields +:+ String lfChar rest) =
    readFrom RecordStart EmptyString [] (rows ++ [record ++ field :: fields]) rest.
Proof.
  induction fields as [|next fields IH]; intros st field record rows rest Hst.
  - destruct (readFrom_writeField st field record rows (String lfChar rest) Hst)
      as (st' & Hst' & Hread).
    cbn [writeFields]. rewrite ?string_app_nil_l.
    by rewrite Hread, readFrom_lf.
  - cbn [writeFields].
    rewrite !string_app_assoc, string_app_cons.
    rewrite ?string_app_nil_l.
    destruct (readFrom_writeField st field record rows
                (String commaChar (writeField next +:+ writeFields false fields
                                     +:+ String lfChar rest)) Hst)
      as (st' & Hst' & Hread).
    rewrite Hread, readFrom_comma by done.
    rewrite IH by (by right).
    by rewrite <- app_assoc.
Qed.

Lemma readFrom_writeRecords records : forall rows,
  Forall (fun record => record <> []) records ->
  readFrom RecordStart EmptyString [] rows (writeRecords records) =
    Some (rows ++ records).
Proof.
  induction records as [|record records IH]; intros rows Hne.
  - by rewrite app_nil_r.
  - apply Forall_cons in Hne as [Hrecord Hne].
    destruct record as [|field fields]; [done|].
    cbn [writeRecords]. unfold writeRecord. cbn [writeFields].
    rewrite !string_app_assoc, string_app_cons, !string_app_nil_l.
    rewrite (readFrom_writeFields fields RecordStart field [] rows) by (by left).
    rewrite IH by done. by rewrite <- app_assoc.
Qed.

(** What [csv.Writer] writes for records with at least one field each, the
    reader reads back as the same records. *)
Lemma readAll_writeRecords records :
  Forall (fun record => record <> []) records ->
  readAll (writeRecords records) = Some records.
Proof. intros Hne. unfold readAll. by rewrite readFrom_writeRecords. Qed.

(** ** Manifest generation *)

(** The loop over the snapshot files appends the record of every file
    [os.Stat] succeeds on, in order, and logs a line for every other file;
    it changes nothing but the trace. *)
Lemma statRecords_spec snapshotFiles : forall records w,
  statRecords snapshotFiles records w =
    (Returns (records ++ omap (manifestRow (files w)) snapshotFiles),
     addEvents w (omap (statFailure (files w)) snapshotFiles)).
Proof.
  induction snapshotFiles as [|file rest IH]; intros records w.
  - cbn. unfold addEvents. destruct w; cbn. by rewrite !app_nil_r.
  - cbn [statRecords omap list_omap]. unfold manifestRow at 1, statFailure at 1.
    io_unfold.
    destruct (files w !! file) as [[data modTime readable|]|];
      cbn [env files dials events]; rewrite IH; unfold addEvents;
      cbn [env files dials events]; rewrite <- ?app_assoc; done.
Qed.

(** A run of [generateMetadata] that finds snapshot files and can create and
    write the manifest. *)
Lemma generateMetadata_writes config w :
  let dir := SnapshotOutputDir config in
  let csv := CsvOutputFile config in
  let paths := snapshotPaths dir (files w) in
  let text := writeRecords (csvHeader :: omap (manifestRow (files w)) paths) in
  patternError (env w) (Join dir "snapshot*.jpg") = None ->
  paths <> [] ->
  createOutcome (env w) csv = None ->
  writeOutcome (env w) csv = None ->
  generateMetadata config w =
    (Returns tt,
     mkWorld (env w)
       (<[csv := Regular text (now (env w)) true]>
          (<[csv := Regular EmptyString (now (env w)) true]> (files w)))
       (dials w)
       (events w ++
          Log "Generating metadata..." :: omap (statFailure (files w)) paths
          ++ [Create csv; Write csv text; Log "Metadata generation completed."]
          ++ closeTrace (env w) csv)).
Proof.
  intros dir csv paths text Hpat Hpaths Hcreate Hwrite.
  subst dir csv text paths. unfold generateMetadata.
  unfold mbind at 1 2, IO_bind, log_Println, emit, filepath_Glob.
  cbn [env files dials events]. rewrite Hpat.
  rewrite bool_decide_eq_false_2 by (by intros ?%nil_length_inv).
  unfold mbind at 1, IO_bind. rewrite statRecords_spec.
  unfold addEvents. cbn [env files dials events].
  io_unfold. rewrite Hcreate. cbn [env files dials events fileName].
  rewrite Hwrite. cbn [env files dials events fileName].
  unfold closeTrace.
  destruct (closeOutcome (env w) (CsvOutputFile config));
    cbn [env files dials events]; rewrite <- !app_assoc; cbn [app]; done.
Qed.

(** C6. When [filepath.Glob] finds no snapshot file, [generateMetadata]
    logs a warning and returns: it creates and writes no file, the file
    system is as it was.  A second call in that state does the same. *)
Theorem generateMetadata_no_snapshots (config : Config) (w : World) :
  patternError (env w) (Join (SnapshotOutputDir config) "snapshot*.jpg") = None ->
  snapshotPaths (SnapshotOutputDir config) (files w) = [] ->
  let noop := [Log "Generating metadata..."; Log "Warning: No snapshot files found."] in
  let w1 := addEvents w noop in
  generateMetadata config w = (Returns tt, w1) /\
  files w1 = files w /\
  generateMetadata config w1 = (Returns tt, addEvents w1 noop) /\
  files (addEvents w1 noop) = files w.
Proof.
  intros Hpat Hnone noop w1. subst w1 noop.
  assert (forall w0, env w0 = env w -> files w0 = files w ->
            generateMetadata config w0 =
              (Returns tt,
               addEvents w0 [Log "Generating metadata...";
                             Log "Warning: No snapshot files found."])) as Hrun.
  { intros w0 Henv Hfiles. unfold generateMetadata.
    unfold mbind at 1 2, IO_bind, log_Println, emit, filepath_Glob.
    cbn [env files dials events]. rewrite Henv, Hfiles, Hpat, Hnone.
    cbn [length]. rewrite bool_decide_eq_true_2 by done.
    cbn [env files dials events]. unfold addEvents.
    by rewrite Henv, Hfiles, <- app_assoc. }
  split; [by apply Hrun|]. split; [done|]. split; [by apply Hrun|done].
Qed.

Lemma generateMetadata_no_snapshots_witness :
  let w := emptyWorld healthy in
  let noop := [Log "Generating metadata..."; Log "Warning: No snapshot files found."] in
  let w1 := addEvents w noop in
  generateMetadata sampleConfig w = (Returns tt, w1) /\
  files w1 = files w /\
  generateMetadata sampleConfig w1 = (Returns tt, addEvents w1 noop) /\
  files (addEvents w1 noop) = files w.
Proof.
  apply (generateMetadata_no_snapshots sampleConfig (emptyWorld healthy));
    reflexivity.
Defined.

Lemma elem_of_omap_statFailure fs file err (paths : list string) :
  file ∈ paths ->
  fs !! file = None \/ fs !! file = Some Dangling ->
  err = "stat " +:+ file +:+ ": no such file or directory" ->
  Log ("Failed to retrieve file info for '" +:+ file +:+ "': " +:+ err)
    ∈ omap (statFailure fs) paths.
Proof.
  intros Hin Hfs ->. apply list_elem_of_omap. exists file. split; [done|].
  unfold statFailure. by destruct Hfs as [-> | ->].
Qed.

Lemma omap_manifestRow_length fs (paths : list string) :
  (length (omap (manifestRow fs) paths) <= length paths)%nat /\
  ((exists file, file ∈ paths /\ manifestRow fs file = None) ->
   (length (omap (manifestRow fs) paths) < length paths)%nat).
Proof.
  induction paths as [|file rest [IHle IHlt]]; cbn [omap list_omap length].
  - split; [done|]. intros (file & Hin%elem_of_nil & _). done.
  - destruct (manifestRow fs file) as [row|] eqn:Hrow; cbn [length].
    + split; [lia|]. intros (file' & Hin & Hnone).
      apply elem_of_cons in Hin as [->|Hin]; [congruence|].
      apply Nat.succ_lt_mono in IHlt; [lia|]. eauto. 
    + split; [lia|]. intros _. lia.
Qed.

Lemma manifest_rows_nonempty fs (paths : list string) :
  Forall (fun record : list string => record <> [])
    (csvHeader :: omap (manifestRow fs) paths).
Proof.
  constructor; [done|]. apply Forall_forall. intros row Hin.
  apply list_elem_of_omap in Hin as (file & _ & Hrow). unfold manifestRow in Hrow.
  destruct (fs !! file) as [[? ? ?|]|]; by simplify_eq.
Qed.

(** C9. When [os.Stat] fails for a file [filepath.Glob] found,
    [generateMetadata] logs the failure and leaves the file out; the
    manifest it writes has the header and, in order, the row of every file
    [os.Stat] succeeded on.  With a failing file among M found, the manifest
    has fewer than M+1 rows. *)
Theorem generateMetadata_omits_failed_stat (config : Config) (w : World) :
  let dir := SnapshotOutputDir config in
  let csv := CsvOutputFile config in
  let paths := snapshotPaths dir (files w) in
  let rows := omap (manifestRow (files w)) paths in
  patternError (env w) (Join dir "snapshot*.jpg") = None ->
  paths <> [] ->
  createOutcome (env w) csv = None ->
  writeOutcome (env w) csv = None ->
  exists w',
    generateMetadata config w = (Returns tt, w') /\
    fileText w' csv = Some (writeRecords (csvHeader :: rows)) /\
    readAll (writeRecords (csvHeader :: rows)) = Some (csvHeader :: rows) /\
    (forall file err,
       file ∈ paths -> outcome (os_Stat file) w = Returns (inr err) ->
       Log ("Failed to retrieve file info for '" +:+ file +:+ "': " +:+ err)
         ∈ events w' /\
       manifestRow (files w) file = None /\
       (length (csvHeader :: rows) < length paths + 1)%nat) /\
    (forall file modTime,
       file ∈ paths -> outcome (os_Stat file) w = Returns (inl modTime) ->
       [Base file; modTime] ∈ rows).
Proof.
  intros dir csv paths rows Hpat Hpaths Hcreate Hwrite.
  eexists. split; [by apply generateMetadata_writes|].
  split; [|split; [|split]].
  - unfold fileText. cbn [files]. by rewrite lookup_insert_eq.
  - apply readAll_writeRecords, manifest_rows_nonempty.
  - intros file err Hin Hstat. unfold outcome, os_Stat in Hstat.
    assert (manifestRow (files w) file = None) as Hnone.
    { unfold manifestRow. by destruct (files w !! file) as [[? ? ?|]|]. }
    split; [|split; [done|]].
    + cbn [events]. apply elem_of_app. right. apply elem_of_cons. right.
      apply elem_of_app. left.
      apply elem_of_omap_statFailure; [done| |].
      * destruct (files w !! file) as [[? ? ?|]|]; by eauto.
      * destruct (files w !! file) as [[? ? ?|]|]; cbn in Hstat; by simplify_eq.
    + cbn [length]. 
      destruct (omap_manifestRow_length (files w) paths) as [_ Hlt].
      specialize (Hlt (ex_intro _ file (conj Hin Hnone))). fold rows in Hlt. lia.
  - intros file modTime Hin Hstat. unfold outcome, os_Stat in Hstat.
    apply list_elem_of_omap. exists file. split; [done|]. unfold manifestRow.
    destruct (files w !! file) as [[? ? ?|]|]; cbn in Hstat; by simplify_eq.
Qed.

Lemma generateMetadata_omits_failed_stat_witness :
  snapshotPaths (SnapshotOutputDir sampleConfig) (files brokenWorld) <> [] /\
  exists w',
    generateMetadata sampleConfig brokenWorld = (Returns tt, w') /\
    fileText w' (CsvOutputFile sampleConfig) =
      Some (writeRecords
              (csvHeader ::
               omap (manifestRow (files brokenWorld))
                 (snapshotPaths (SnapshotOutputDir sampleConfig)
                    (files brokenWorld)))).
Proof.
  assert (snapshotPaths (SnapshotOutputDir sampleConfig) (files brokenWorld) <> [])
    as Hpaths by (vm_compute; discriminate).
  split; [exact Hpaths|].
  destruct (generateMetadata_omits_failed_stat sampleConfig brokenWorld
              eq_refl Hpaths eq_refl eq_refl) as (w' & Hrun & Htext & _).
  exists w'. split; [exact Hrun|exact Htext].
Defined.

Lemma mapM_rowPair (pairs : list (string * string)) :
  mapM rowPair (pairRow <$> pairs) = Some pairs.
Proof.
  induction pairs as [|[name time] pairs IH]; [done|].
  cbn [fmap list_fmap mapM pairRow rowPair fst snd]. rewrite IH. done.
Qed.

(** Whatever the pairs, the manifest written for them reads back as
    them. *)
Lemma manifestPairs_writeRecords (pairs : list (string * string)) :
  manifestPairs (writeRecords (csvHeader :: (pairRow <$> pairs))) = Some pairs.
Proof.
  unfold manifestPairs. rewrite readAll_writeRecords.
  - rewrite bool_decide_eq_true_2 by done. apply mapM_rowPair.
  - constructor; [done|]. apply Forall_forall.
    intros row (p & -> & _)%list_elem_of_fmap. done.
Qed.

Lemma manifestRow_pairRow fs (paths : list string) :
  omap (manifestRow fs) paths = pairRow <$> omap (manifestPair fs) paths.
Proof.
  induction paths as [|file rest IH]; [done|].
  cbn [omap list_omap]. unfold manifestRow at 1, manifestPair at 1.
  destruct (fs !! file) as [[? ? ?|]|]; cbn [fmap list_fmap]; by rewrite ?IH.
Qed.

(** C8. The manifest [generateMetadata] writes, read back as delimited
    text, gives the (filename, timestamp) pairs it was written from, in the
    same order. *)
Theorem manifest_round_trip (config : Config) (w : World) :
  let dir := SnapshotOutputDir config in
  let csv := CsvOutputFile config in
  let paths := snapshotPaths dir (files w) in
  patternError (env w) (Join dir "snapshot*.jpg") = None ->
  paths <> [] ->
  createOutcome (env w) csv = None ->
  writeOutcome (env w) csv = None ->
  exists w' text,
    generateMetadata config w = (Returns tt, w') /\
    fileText w' csv = Some text /\
    manifestPairs text = Some (omap (manifestPair (files w)) paths).
Proof.
  intros dir csv paths Hpat Hpaths Hcreate Hwrite.
  eexists. eexists. split; [by apply generateMetadata_writes|].
  split.
  - unfold fileText. cbn [files]. by rewrite lookup_insert_eq.
  - rewrite manifestRow_pairRow. apply manifestPairs_writeRecords.
Qed.

Lemma manifest_round_trip_witness :
  exists w' text,
    generateMetadata sampleConfig snapshotWorld = (Returns tt, w') /\
    fileText w' (CsvOutputFile sampleConfig) = Some text /\
    manifestPairs text =
      Some (omap (manifestPair (files snapshotWorld))
              (snapshotPaths (SnapshotOutputDir sampleConfig) (files snapshotWorld))).
Proof.
  apply (manifest_round_trip sampleConfig snapshotWorld).
  - reflexivity.
  - vm_compute. discriminate.
  - reflexivity.
  - reflexivity.
Defined.

(** *** Paths and names *)

Lemma list_ascii_of_string_app (s1 s2 : string) :
  String.list_ascii_of_string (s1 +:+ s2) =
    String.list_ascii_of_string s1 ++ String.list_ascii_of_string s2.
Proof.
  induction s1 as [|c s1 IH]; [done|].
  rewrite string_app_cons. cbn [String.list_ascii_of_string]. by rewrite IH.
Qed.

Lemma untilSeparator_app (l rest : list ascii) :
  Forall (fun c => IsPathSeparator c = false) l ->
  untilSeparator (l ++ Separator :: rest) = l.
Proof.
  induction 1 as [|c l Hc _ IH]; cbn [app untilSeparator].
  - unfold IsPathSeparator. by rewrite bool_decide_eq_true_2.
  - by rewrite Hc, IH.
Qed.

Lemma stripSeparators_name (l rest : list ascii) :
  l <> [] -> Forall (fun c => IsPathSeparator c = false) l ->
  stripSeparators (l ++ rest) = l ++ rest.
Proof.
  intros Hne Hall. destruct Hall as [|c l Hc _]; [done|].
  cbn [app stripSeparators]. by rewrite Hc.
Qed.

Lemma isName_spec (name : string) :
  isName name = true ->
  String.list_ascii_of_string name <> [] /\
  Forall (fun c => IsPathSeparator c = false) (String.list_ascii_of_string name).
Proof.
  unfold isName. intros [Hne Hall]%andb_true_iff.
  apply bool_decide_eq_true in Hne. split.
  - by destruct name.
  - apply Forall_forall. intros c Hin%list_elem_of_In.
    rewrite forallb_forall in Hall. apply Hall in Hin.
    by apply negb_true_iff.
Qed.

(** [Base] gives back the name [Join] added to a directory. *)
Lemma Base_Join (dir name : string) :
  isName name = true -> Base (Join dir name) = name.
Proof.
  intros [Hne Hall]%isName_spec. unfold Base, Join.
  rewrite bool_decide_eq_false_2 by (by destruct dir).
  rewrite !list_ascii_of_string_app. cbn [String.list_ascii_of_string app].
  rewrite reverse_app, reverse_cons, <- !app_assoc. cbn [app].
  assert (reverse (String.list_ascii_of_string name) <> []) as Hne'.
  { intros Hnil. apply Hne. apply (f_equal reverse) in Hnil.
    by rewrite reverse_involutive in Hnil. }
  assert (Forall (fun c => IsPathSeparator c = false)
            (reverse (String.list_ascii_of_string name))) as Hall'.
  { by apply Forall_reverse. }
  rewrite stripSeparators_name by done.
  change ("/"%char) with Separator.
  rewrite untilSeparator_app by done.
  rewrite reverse_involutive.
  rewrite bool_decide_eq_false_2 by done.
  apply String.string_of_list_ascii_of_string.
Qed.

Lemma trimPrefix_app (prefix s : string) : trimPrefix prefix (prefix +:+ s) = Some s.
Proof.
  induction prefix as [|c prefix IH]; [done|].
  rewrite string_app_cons. cbn [trimPrefix]. by rewrite bool_decide_eq_true_2.
Qed.

Lemma string_length_app (s1 s2 : string) :
  String.length (s1 +:+ s2) = (String.length s1 + String.length s2)%nat.
Proof.
  induction s1 as [|c s1 IH]; [done|].
  rewrite string_app_cons. cbn [String.length]. by rewrite IH.
Qed.

Lemma substring_all (s : string) : String.substring 0 (String.length s) s = s.
Proof. induction s as [|c s IH]; [done|]. cbn. by rewrite IH. Qed.

Lemma substring_app (s1 s2 : string) :
  String.substring (String.length s1) (String.length s2) (s1 +:+ s2) = s2.
Proof.
  induction s1 as [|c s1 IH]; [apply substring_all|].
  rewrite string_app_cons. cbn [String.length String.substring]. apply IH.
Qed.

Lemma hasSuffix_app (s suffix : string) : hasSuffix (s +:+ suffix) suffix = true.
Proof.
  unfold hasSuffix. rewrite string_length_app.
  rewrite bool_decide_eq_true_2 by lia.
  replace (String.length s + String.length suffix - String.length suffix)%nat
    with (String.length s) by lia.
  rewrite substring_app. by rewrite bool_decide_eq_true_2.
Qed.

(** The names ffmpeg gives the snapshots match the pattern of the glob. *)
Lemma matchSnapshot_snapshotName (k : nat) : matchSnapshot (snapshotName k) = true.
Proof.
  unfold matchSnapshot, snapshotName. rewrite trimPrefix_app. apply hasSuffix_app.
Qed.

Lemma Readdirnames_isName dir fs name :
  name ∈ Readdirnames dir fs -> isName name = true.
Proof.
  unfold Readdirnames. intros (path & _ & Hchild)%list_elem_of_omap.
  unfold childName in Hchild.
  destruct (trimPrefix (dir +:+ "/") path) as [rest|]; [|done].
  destruct (isName rest) eqn:Hname; by simplify_eq.
Qed.

Lemma filter_Forall_id {A} (P : A -> Prop) `{!forall x, Decision (P x)} (l : list A) :
  Forall P l -> filter P l = l.
Proof.
  induction 1 as [|x l Hx _ IH]; [done|].
  rewrite filter_cons. rewrite decide_True by done. by rewrite IH.
Qed.

(** The rows written for names that are all regular files of [dir]. *)
Lemma manifestRows_regular fs dir (names : list string) :
  Forall (fun name => isName name = true /\
            exists data modTime readable,
              fs !! Join dir name = Some (Regular data modTime readable)) names ->
  Forall2 (fun name row =>
             exists data modTime readable,
               fs !! Join dir name = Some (Regular data modTime readable) /\
               row = [name; modTime])
    names (omap (manifestRow fs) (Join dir <$> names)).
Proof.
  induction 1 as [|name names [Hname (data & modTime & readable & Hfile)] _ IH].
  - constructor.
  - cbn [fmap list_fmap omap list_omap]. unfold manifestRow at 1.
    rewrite Hfile, Base_Join by done. constructor; [eauto|done].
Qed.

(** C4. When the snapshot directory holds exactly the files
    [snapshot001.jpg] to [snapshotM.jpg] (M >= 1), all of them regular files,
    and the manifest file can be created and written, [generateMetadata]
    writes M+1 rows: the header, then one row per file.  The rows follow the
    order of [filepath.Glob], which is the ascending order of the file names;
    the first field of a row is the file's name, the second its modification
    time. *)
Theorem generateMetadata_lists_every_snapshot (config : Config) (w : World) (M : nat) :
  let dir := SnapshotOutputDir config in
  let csv := CsvOutputFile config in
  (1 <= M)%nat ->
  Readdirnames dir (files w) ≡ₚ snapshotName <$> seq 1 M ->
  (forall k, (1 <= k <= M)%nat ->
     exists data modTime readable,
       files w !! Join dir (snapshotName k) = Some (Regular data modTime readable)) ->
  patternError (env w) (Join dir "snapshot*.jpg") = None ->
  createOutcome (env w) csv = None ->
  writeOutcome (env w) csv = None ->
  exists names rows w',
    names ≡ₚ snapshotName <$> seq 1 M /\
    StronglySorted String.le names /\
    snapshotPaths dir (files w) = Join dir <$> names /\
    Forall2 (fun name row =>
               exists data modTime readable,
                 files w !! Join dir name = Some (Regular data modTime readable) /\
                 row = [name; modTime])
      names rows /\
    generateMetadata config w = (Returns tt, w') /\
    fileText w' csv = Some (writeRecords (csvHeader :: rows)) /\
    readAll (writeRecords (csvHeader :: rows)) = Some (csvHeader :: rows) /\
    length (csvHeader :: rows) = (M + 1)%nat.
Proof.
  intros dir csv HM Hdir Hregular Hpat Hcreate Hwrite.
  set (names := sort_Strings (Readdirnames dir (files w))).
  assert (names ≡ₚ Readdirnames dir (files w)) as Hsorted_perm
    by apply merge_sort_Permutation.
  assert (names ≡ₚ snapshotName <$> seq 1 M) as Hperm by (by etrans).
  assert (forall name, name ∈ names -> exists k, name = snapshotName k /\ (1 <= k <= M)%nat)
    as Hnames.
  { intros name Hin. rewrite Hperm in Hin.
    apply list_elem_of_fmap in Hin as (k & -> & Hk). exists k. split; [done|].
    apply elem_of_seq in Hk. lia. }
  assert (snapshotPaths dir (files w) = Join dir <$> names) as Hpaths.
  { unfold snapshotPaths. fold names. f_equal. apply filter_Forall_id.
    apply Forall_forall. intros name (k & -> & _)%Hnames.
    apply matchSnapshot_snapshotName. }
  assert (length names = M) as Hlength.
  { by rewrite Hperm, length_fmap, length_seq. }
  pose proof (manifestRows_regular (files w) dir names) as Hrows.
  rewrite <- Hpaths in Hrows.
  exists names, (omap (manifestRow (files w)) (snapshotPaths dir (files w))).
  eexists. split; [done|]. split.
  { apply (StronglySorted_merge_sort String.le). }
  split; [done|]. split.
  { apply Hrows. apply Forall_forall. intros name Hin. split.
    - apply (Readdirnames_isName dir (files w)). by rewrite <- Hsorted_perm.
    - apply Hnames in Hin as (k & -> & Hk). by apply Hregular. }
  split.
  { apply generateMetadata_writes; try done.
    fold dir. rewrite Hpaths. destruct names; [cbn in Hlength; lia|done]. }
  split.
  { unfold fileText. cbn [files]. by rewrite lookup_insert_eq. }
  split.
  { apply readAll_writeRecords, manifest_rows_nonempty. }
  cbn [length]. rewrite Hpaths, <- Hlength.
  assert (length (omap (manifestRow (files w)) (Join dir <$> names)) = length names)
    as ->; [|lia].
  symmetry. eapply Forall2_length. rewrite <- Hpaths. apply Hrows.
  apply Forall_forall. intros name Hin. split.
  - apply (Readdirnames_isName dir (files w)). by rewrite <- Hsorted_perm.
  - apply Hnames in Hin as (k & -> & Hk). by apply Hregular.
Qed.

Lemma generateMetadata_lists_every_snapshot_witness :
  exists names rows w',
    names ≡ₚ snapshotName <$> seq 1 3 /\
    StronglySorted String.le names /\
    snapshotPaths (SnapshotOutputDir sampleConfig) (files snapshotWorld)
      = Join (SnapshotOutputDir sampleConfig) <$> names /\
    Forall2 (fun name row =>
               exists data modTime readable,
                 files snapshotWorld !! Join (SnapshotOutputDir sampleConfig) name
                   = Some (Regular data modTime readable) /\
                 row = [name; modTime])
      names rows /\
    generateMetadata sampleConfig snapshotWorld = (Returns tt, w') /\
    fileText w' (CsvOutputFile sampleConfig) = Some (writeRecords (csvHeader :: rows)) /\
    readAll (writeRecords (csvHeader :: rows)) = Some (csvHeader :: rows) /\
    length (csvHeader :: rows) = (3 + 1)%nat.
Proof.
  apply (generateMetadata_lists_every_snapshot sampleConfig snapshotWorld 3).
  - lia.
  - vm_compute.
    etrans; [apply Permutation_swap|]. apply Permutation_skip.
    etrans; [apply Permutation_swap|]. reflexivity.
  - intros k Hk.
    assert (k = 1 \/ k = 2 \/ k = 3)%nat as [->|[->| ->]] by lia;
      vm_compute; eauto.
  - reflexivity.
  - reflexivity.
  - reflexivity.
Defined.

(** ** The coordinator *)

Module CoordinatorFacts.
Import Coordinator.

Lemma mainBody_NoDup : NoDup mainBody.
Proof. apply (bool_decide_unpack (NoDup mainBody)). by vm_compute. Qed.

(** What [main] runs next is a statement of its body. *)
Lemma main_next s x k : mainOk s -> code s Main = Some (x :: k) -> x ∈ mainBody.
Proof.
  intros (done & k' & Hk' & Hbody & _) Hcode. rewrite Hcode in Hk'. simplify_eq.
  rewrite Hbody. apply elem_of_app. right. apply elem_of_cons. by left.
Qed.

Lemma main_statement s x k :
  mainOk s -> code s Main = Some (x :: k) ->
  (exists g, x = Go g) \/ x = WgAdd 2 \/ x = WgWait \/ x = SleepDuration
    \/ x = LogComplete.
Proof.
  intros Hmain Hcode. pose proof (main_next _ _ _ Hmain Hcode) as Hin.
  unfold mainBody in Hin. rewrite !elem_of_cons, elem_of_nil in Hin.
  destruct_or! Hin; subst; eauto 10.
Qed.

Ltac not_in_main Hmain Hcode :=
  exfalso;
  destruct (main_statement _ _ _ Hmain Hcode) as [[? ?]|[?|[?|[?|?]]]];
  discriminate.

Ltac cases_of H Hcode :=
  rewrite Hcode in H; destruct_or! H; destruct_and?; simplify_eq.

(** Who can run which statement, and what the trace holds by then. *)
Lemma owner_send s tr t c k :
  invariant s tr -> code s t = Some (Send c :: k) ->
  (t = Spawned VideoTask /\ c = testVideoDone /\ k = [] /\
   (Signal testVideoDone ∉ tr) /\ End GenerateTestVideo ∈ tr) \/
  (t = Spawned SnapshotsTask /\ c = snapshotsDone /\ k = [] /\
   (Signal snapshotsDone ∉ tr) /\ End GenerateSnapshots ∈ tr).
Proof.
  intros (Hmain & Hv & Hs & Hm & Hus & Hum) Hcode.
  destruct t as [|[]]; [not_in_main Hmain Hcode|..].
  - unfold videoOk in Hv. cases_of Hv Hcode. by left.
  - unfold snapshotsOk in Hs. cases_of Hs Hcode. by right.
  - unfold metadataOk in Hm. cases_of Hm Hcode.
  - unfold uploadOk in Hus. cases_of Hus Hcode.
  - unfold uploadOk in Hum. cases_of Hum Hcode.
Qed.

Lemma owner_recv s tr t c k :
  invariant s tr -> code s t = Some (Recv c :: k) ->
  (t = Spawned SnapshotsTask /\ c = testVideoDone /\
   k = [Call GenerateSnapshots; Send snapshotsDone] /\ Signal snapshotsDone ∉ tr) \/
  (t = Spawned MetadataTask /\ c = snapshotsDone /\ k = [Call GenerateMetadata]).
Proof.
  intros (Hmain & Hv & Hs & Hm & Hus & Hum) Hcode.
  destruct t as [|[]]; [not_in_main Hmain Hcode|..].
  - unfold videoOk in Hv. cases_of Hv Hcode.
  - unfold snapshotsOk in Hs. cases_of Hs Hcode. by left.
  - unfold metadataOk in Hm. cases_of Hm Hcode. by right.
  - unfold uploadOk in Hus. cases_of Hus Hcode.
  - unfold uploadOk in Hum. cases_of Hum Hcode.
Qed.

Lemma owner_call s tr t f k :
  invariant s tr -> code s t = Some (Call f :: k) ->
  (t = Spawned VideoTask /\ f = GenerateTestVideo /\ k = [Send testVideoDone] /\
   Signal testVideoDone ∉ tr) \/
  (t = Spawned SnapshotsTask /\ f = GenerateSnapshots /\ k = [Send snapshotsDone] /\
   (Signal snapshotsDone ∉ tr) /\ Signal testVideoDone ∈ tr) \/
  (t = Spawned MetadataTask /\ f = GenerateMetadata /\ k = [] /\
   Signal snapshotsDone ∈ tr) \/
  (t = Spawned UploadSnapshotsTask /\ f = UploadSnapshots /\ k = [WgDone]) \/
  (t = Spawned UploadMetadataTask /\ f = UploadMetadata /\ k = [WgDone]).
Proof.
  intros (Hmain & Hv & Hs & Hm & Hus & Hum) Hcode.
  destruct t as [|[]]; [not_in_main Hmain Hcode|..].
  - unfold videoOk in Hv. cases_of Hv Hcode. by left.
  - unfold snapshotsOk in Hs. cases_of Hs Hcode. by right; left.
  - unfold metadataOk in Hm. cases_of Hm Hcode. by right; right; left.
  - unfold uploadOk in Hus. cases_of Hus Hcode. by right; right; right; left.
  - unfold uploadOk in Hum. cases_of Hum Hcode. by right; right; right; right.
Qed.

Lemma owner_running s tr t f k :
  invariant s tr -> code s t = Some (Running f :: k) ->
  (t = Spawned VideoTask /\ f = GenerateTestVideo /\ k = [Send testVideoDone] /\
   Signal testVideoDone ∉ tr) \/
  (t = Spawned SnapshotsTask /\ f = GenerateSnapshots /\ k = [Send snapshotsDone] /\
   Signal snapshotsDone ∉ tr) \/
  (t = Spawned MetadataTask /\ f = GenerateMetadata /\ k = []) \/
  (t = Spawned UploadSnapshotsTask /\ f = UploadSnapshots /\ k = [WgDone]) \/
  (t = Spawned UploadMetadataTask /\ f = UploadMetadata /\ k = [WgDone]).
Proof.
  intros (Hmain & Hv & Hs & Hm & Hus & Hum) Hcode.
  destruct t as [|[]]; [not_in_main Hmain Hcode|..].
  - unfold videoOk in Hv. cases_of Hv Hcode. by left.
  - unfold snapshotsOk in Hs. cases_of Hs Hcode. by right; left.
  - unfold metadataOk in Hm. cases_of Hm Hcode. by right; right; left.
  - unfold uploadOk in Hus. cases_of Hus Hcode. by right; right; right; left.
  - unfold uploadOk in Hum. cases_of Hum Hcode. by right; right; right; right.
Qed.

Lemma owner_go s tr t g k :
  invariant s tr -> code s t = Some (Go g :: k) -> t = Main.
Proof.
  intros (Hmain & Hv & Hs & Hm & Hus & Hum) Hcode.
  destruct t as [|[]]; [done|..].
  - unfold videoOk in Hv. cases_of Hv Hcode.
  - unfold snapshotsOk in Hs. cases_of Hs Hcode.
  - unfold metadataOk in Hm. cases_of Hm Hcode.
  - unfold uploadOk in Hus. cases_of Hus Hcode.
  - unfold uploadOk in Hum. cases_of Hum Hcode.
Qed.

(** The statements of the wait group, the sleep and the log are run by
    [main], but for [wg.Done()], which the two upload goroutines run last. *)
Lemma owner_other s tr t x k :
  invariant s tr -> code s t = Some (x :: k) ->
  (exists n, x = WgAdd n) \/ x = WgDone \/ x = WgWait \/ x = SleepDuration
    \/ x = LogComplete ->
  t = Main \/
  (t = Spawned UploadSnapshotsTask /\ x = WgDone /\ k = []) \/
  (t = Spawned UploadMetadataTask /\ x = WgDone /\ k = []).
Proof.
  intros (Hmain & Hv & Hs & Hm & Hus & Hum) Hcode Hx.
  destruct t as [|[]]; [by left|..].
  - unfold videoOk in Hv. cases_of Hv Hcode;
      first [ by destruct Hx as [[? ?]|[?|[?|[?|?]]]]
            | by right; left | by right; right ].
  - unfold snapshotsOk in Hs. cases_of Hs Hcode;
      first [ by destruct Hx as [[? ?]|[?|[?|[?|?]]]]
            | by right; left | by right; right ].
  - unfold metadataOk in Hm. cases_of Hm Hcode;
      first [ by destruct Hx as [[? ?]|[?|[?|[?|?]]]]
            | by right; left | by right; right ].
  - unfold uploadOk in Hus. cases_of Hus Hcode;
      first [ by destruct Hx as [[? ?]|[?|[?|[?|?]]]]
            | by right; left | by right; right ].
  - unfold uploadOk in Hum. cases_of Hum Hcode;
      first [ by destruct Hx as [[? ?]|[?|[?|[?|?]]]]
            | by right; left | by right; right ].
Qed.

Lemma in_snoc_l (x a : Action) tr : x ∈ tr -> x ∈ tr ++ [a].
Proof. intros. apply elem_of_app. by left. Qed.

Lemma in_snoc_r (x : Action) tr : x ∈ tr ++ [x].
Proof. apply elem_of_app. right. by apply list_elem_of_singleton. Qed.

Lemma notin_snoc (x a : Action) tr : x ∉ tr -> x <> a -> x ∉ tr ++ [a].
Proof.
  intros Hx Hne [Hin|Hin%list_elem_of_singleton]%elem_of_app; [by apply Hx|done].
Qed.

Ltac trace_fact :=
  first [ assumption | done | apply in_snoc_r | apply in_snoc_l; assumption
        | apply notin_snoc; [assumption|done] ].

Ltac pick :=
  first [ solve [split_and?; trace_fact] | left; solve [split_and?; trace_fact]
        | right; pick ].

Lemma videoOk_snoc c tr a :
  videoOk c tr -> a <> Signal testVideoDone -> videoOk c (tr ++ [a]).
Proof. unfold videoOk. intros H Ha. destruct_or! H; destruct_and?; pick. Qed.

Lemma snapshotsOk_snoc c tr a :
  snapshotsOk c tr -> a <> Signal snapshotsDone -> snapshotsOk c (tr ++ [a]).
Proof. unfold snapshotsOk. intros H Ha. destruct_or! H; destruct_and?; pick. Qed.

Lemma metadataOk_snoc c tr a : metadataOk c tr -> metadataOk c (tr ++ [a]).
Proof. unfold metadataOk. intros H. destruct_or! H; destruct_and?; pick. Qed.

(** A step of a started goroutine does not touch what [main] has left. *)
Lemma mainOk_goroutine_step s g k :
  mainOk s -> code s (Spawned g) <> None -> mainOk (setCode (Spawned g) k s).
Proof.
  intros (done & km & Hmain & Hbody & Hfresh) Hstarted.
  exists done, km. unfold setCode. cbn [code].
  rewrite fn_lookup_insert_ne by done. split; [done|]. split; [done|].
  intros g' Hgo. rewrite fn_lookup_insert_ne; [by apply Hfresh|].
  intros [= ->]. by apply Hstarted, Hfresh.
Qed.

Lemma mainOk_main_step s x k :
  mainOk s -> code s Main = Some (x :: k) -> mainOk (setCode Main k s).
Proof.
  intros (done & km & Hmain & Hbody & Hfresh) Hcode.
  rewrite Hcode in Hmain. simplify_eq.
  exists (done ++ [x]), k. unfold setCode. cbn [code].
  rewrite fn_lookup_insert. split; [done|]. split; [by rewrite <- app_assoc|].
  intros g Hgo. rewrite fn_lookup_insert_ne by done.
  apply Hfresh. apply elem_of_cons. by right.
Qed.

(** [main] starts each goroutine once: the goroutine was not running, and
    [main] will not start it again. *)
Lemma mainOk_go s g k :
  mainOk s -> code s Main = Some (Go g :: k) ->
  code s (Spawned g) = None /\
  mainOk (setCode (Spawned g) (body g) (setCode Main k s)).
Proof.
  intros (done & km & Hmain & Hbody & Hfresh) Hcode.
  rewrite Hcode in Hmain. simplify_eq.
  split; [apply Hfresh, elem_of_cons; by left|].
  exists (done ++ [Go g]), k. unfold setCode. cbn [code].
  rewrite fn_lookup_insert_ne, fn_lookup_insert by done.
  split; [done|]. split; [by rewrite <- app_assoc|].
  intros g' Hgo.
  assert (g <> g') as Hne.
  { intros <-. pose proof mainBody_NoDup as Hnodup. rewrite Hbody in Hnodup.
    apply NoDup_app in Hnodup as (_ & _ & Hnodup).
    apply NoDup_cons in Hnodup as [Hnotin _]. done. }
  rewrite !fn_lookup_insert_ne by congruence.
  apply Hfresh. apply elem_of_cons. by right.
Qed.

Ltac code_simpl :=
  unfold setCode, setWg; cbn [code wg exited];
  repeat first [ rewrite fn_lookup_insert
               | rewrite fn_lookup_insert_ne by done ].

Ltac component :=
  code_simpl;
  first [ assumption
        | apply videoOk_snoc; [assumption|done]
        | apply snapshotsOk_snoc; [assumption|done]
        | apply metadataOk_snoc; assumption
        | unfold videoOk, snapshotsOk, metadataOk, uploadOk; pick ].

Ltac goroutine_step Hmain Hcode :=
  split_and!;
  first [ apply mainOk_goroutine_step; [exact Hmain|by rewrite Hcode]
        | component ].

Ltac main_step Hmain Hcode :=
  split_and!; first [ apply (mainOk_main_step _ _ _ Hmain Hcode) | component ].

(** Every step keeps the invariant, and happens only after what has to
    precede it. *)
Lemma step_preserves s tr a s' :
  invariant s tr -> step s a s' ->
  invariant s' (tr ++ [a]) /\ enabledAfter a tr.
Proof.
  intros Hinv Hstep.
  destruct Hstep as [s t f k _ Hcode | s t f k _ Hcode
                    | s t1 t2 c k1 k2 _ Hne Hsend Hrecv | s t g k _ Hcode
                    | s t n k _ Hcode | s t k _ Hcode | s t k _ Hcode _
                    | s t k _ Hcode | s t k _ Hcode | s _ Hcode].
  - (* a call begins *)
    destruct (owner_call _ _ _ _ _ Hinv Hcode) as [H|[H|[H|[H|H]]]];
      destruct_and?; subst;
      destruct Hinv as (Hmain & Hv & Hs & Hm & Hus & Hum);
      (split; [|done]); unfold invariant; goroutine_step Hmain Hcode.
  - (* a call returns *)
    destruct (owner_running _ _ _ _ _ Hinv Hcode) as [H|[H|[H|[H|H]]]];
      destruct_and?; subst;
      destruct Hinv as (Hmain & Hv & Hs & Hm & Hus & Hum);
      (split; [|done]); unfold invariant; goroutine_step Hmain Hcode.
  - (* a send meets a receive *)
    destruct (owner_send _ _ _ _ _ Hinv Hsend) as [H|H];
      destruct (owner_recv _ _ _ _ _ Hinv Hrecv) as [H'|H'];
      destruct_and?; simplify_eq;
      destruct Hinv as (Hmain & Hv & Hs & Hm & Hus & Hum);
      (split; [|done]); unfold invariant; split_and!;
      first [ apply mainOk_goroutine_step;
              [apply mainOk_goroutine_step; [exact Hmain|by rewrite Hsend]
              |code_simpl; by rewrite Hrecv]
            | component ].
  - (* a goroutine is started *)
    pose proof (owner_go _ _ _ _ _ Hinv Hcode) as ->.
    destruct Hinv as (Hmain & Hv & Hs & Hm & Hus & Hum).
    destruct (mainOk_go _ _ _ Hmain Hcode) as [Hfresh Hmain'].
    split; [|done]. unfold invariant. split; [exact Hmain'|].
    destruct g; cbn [body];
      [ unfold videoOk in Hv; cases_of Hv Hfresh
      | unfold snapshotsOk in Hs; cases_of Hs Hfresh
      | .. ];
      split_and!; component.
  - (* wg.Add *)
    destruct (owner_other _ _ _ _ _ Hinv Hcode) as [->|[H|H]];
      [eauto| |destruct_and?; discriminate..].
    destruct Hinv as (Hmain & Hv & Hs & Hm & Hus & Hum).
    split; [|done]. unfold invariant. main_step Hmain Hcode.
  - (* wg.Done *)
    destruct (owner_other _ _ _ _ _ Hinv Hcode) as [->|[H|H]];
      [eauto| | |]; destruct_and?; subst;
      destruct Hinv as (Hmain & Hv & Hs & Hm & Hus & Hum);
      (split; [|done]); unfold invariant;
      first [ main_step Hmain Hcode | goroutine_step Hmain Hcode ].
  - (* wg.Wait *)
    destruct (owner_other _ _ _ _ _ Hinv Hcode) as [->|[H|H]];
      [eauto 10| |destruct_and?; discriminate..].
    destruct Hinv as (Hmain & Hv & Hs & Hm & Hus & Hum).
    split; [|done]. unfold invariant. main_step Hmain Hcode.
  - (* the sleep *)
    destruct (owner_other _ _ _ _ _ Hinv Hcode) as [->|[H|H]];
      [eauto 10| |destruct_and?; discriminate..].
    destruct Hinv as (Hmain & Hv & Hs & Hm & Hus & Hum).
    split; [|done]. unfold invariant. main_step Hmain Hcode.
  - (* the log *)
    destruct (owner_other _ _ _ _ _ Hinv Hcode) as [->|[H|H]];
      [eauto 10| |destruct_and?; discriminate..].
    destruct Hinv as (Hmain & Hv & Hs & Hm & Hus & Hum).
    split; [|done]. unfold invariant. main_step Hmain Hcode.
  - (* exit *)
    destruct Hinv as (Hmain & Hv & Hs & Hm & Hus & Hum).
    split; [|done]. unfold invariant. split_and!; [exact Hmain|component..].
Qed.

Lemma invariant_initial : invariant initial [].
Proof.
  unfold invariant, initial. cbn [code]. split_and!.
  - exists [], mainBody. by split_and!.
  - left. split; [done|]. apply not_elem_of_nil.
  - left. split; [done|]. apply not_elem_of_nil.
  - by left.
  - by left.
  - by left.
Qed.

Lemma precedes_nil a b : precedes a b [].
Proof. intros before after Heq. by destruct before. Qed.

Lemma precedes_snoc a b x tr :
  precedes a b tr -> (x = b -> a ∈ tr) -> precedes a b (tr ++ [x]).
Proof.
  intros Htr Hx before after Heq.
  destruct after as [|y after _] using rev_ind.
  - apply app_inj_tail in Heq as [-> ->]. by apply Hx.
  - rewrite app_comm_cons, app_assoc in Heq.
    apply app_inj_tail in Heq as [-> _]. by eapply Htr.
Qed.

Lemma atMostOnce_snoc a x tr :
  atMostOnce a tr -> (x = a -> a ∉ tr) -> atMostOnce a (tr ++ [x]).
Proof.
  unfold atMostOnce. intros Htr Hx. rewrite filter_app, length_app.
  rewrite filter_cons, filter_nil.
  destruct (decide (x = a)) as [->|Hne]; cbn [length]; [|lia].
  assert (filter (fun y => y = a) tr = []) as ->; [|done].
  specialize (Hx eq_refl). clear Htr.
  induction tr as [|y tr IH]; [done|].
  apply not_elem_of_cons in Hx as [Hne Hx].
  rewrite filter_cons, decide_False by done. by apply IH.
Qed.

Lemma ordered_snoc tr a : ordered tr -> enabledAfter a tr -> ordered (tr ++ [a]).
Proof.
  intros (H1 & H2 & H3 & H4 & H5 & H6) Ha. unfold ordered.
  split_and!;
    first [ apply precedes_snoc; [assumption|] | apply atMostOnce_snoc; [assumption|] ];
    intros ->; cbn in Ha; tauto.
Qed.

Lemma run_invariant tr s : run initial tr s -> invariant s tr /\ ordered tr.
Proof.
  induction 1 as [|tr s a s' _ [Hinv Hord] Hstep].
  - split; [apply invariant_initial|].
    unfold ordered, atMostOnce. split_and!; first [apply precedes_nil | cbn; lia].
  - destruct (step_preserves s tr a s' Hinv Hstep) as [Hinv' Ha].
    split; [done|]. by apply ordered_snoc.
Qed.

(** C7. In every run of the goroutines of [main]: the call of
    [generateTestVideo] has returned before the signal on [testVideoDone]
    passes, and that signal has passed before [generateSnapshots] is
    entered; the call of [generateSnapshots] has returned before the signal
    on [snapshotsDone] passes, and that signal has passed before
    [generateMetadata] is entered.  Each of the two channels carries one
    signal at most. *)
Theorem stages_run_in_order (tr : list Action) (s : State) :
  run initial tr s ->
  precedes (End GenerateTestVideo) (Signal testVideoDone) tr /\
  precedes (Signal testVideoDone) (Begin GenerateSnapshots) tr /\
  precedes (End GenerateSnapshots) (Signal snapshotsDone) tr /\
  precedes (Signal snapshotsDone) (Begin GenerateMetadata) tr /\
  atMostOnce (Signal testVideoDone) tr /\
  atMostOnce (Signal snapshotsDone) tr.
Proof. intros Hrun. by apply run_invariant in Hrun as [_ Hord]. Qed.

Lemma stages_run_in_order_witness :
  precedes (End GenerateTestVideo) (Signal testVideoDone) sampleRun /\
  precedes (Signal testVideoDone) (Begin GenerateSnapshots) sampleRun /\
  precedes (End GenerateSnapshots) (Signal snapshotsDone) sampleRun /\
  precedes (Signal snapshotsDone) (Begin GenerateMetadata) sampleRun /\
  atMostOnce (Signal testVideoDone) sampleRun /\
  atMostOnce (Signal snapshotsDone) sampleRun.
Proof.
  eapply (stages_run_in_order sampleRun).
  change sampleRun with
    (((((([] ++ [Start VideoTask]) ++ [Begin GenerateTestVideo])
          ++ [End GenerateTestVideo]) ++ [Start SnapshotsTask])
        ++ [Signal testVideoDone]) ++ [Begin GenerateSnapshots]).
  eapply run_step; [eapply run_step; [eapply run_step; [eapply run_step;
    [eapply run_step; [eapply run_step; [apply run_nil|]|]|]|]|]|].
  - eapply (step_go _ Main); reflexivity.
  - eapply (step_call _ (Spawned VideoTask)); reflexivity.
  - eapply (step_return _ (Spawned VideoTask)); reflexivity.
  - eapply (step_go _ Main); reflexivity.
  - eapply (step_signal _ (Spawned VideoTask) (Spawned SnapshotsTask));
      [reflexivity|discriminate|reflexivity|reflexivity].
  - eapply (step_call _ (Spawned SnapshotsTask)); reflexivity.
Defined.

End CoordinatorFacts.

(** * Further properties of the code *)

(** ** [establishFTPConnection] on every environment *)

(** X1. With a retry budget of zero or less the loop body never runs:
    [establishFTPConnection] dials nothing, sleeps nothing, and returns at
    once the error naming the configured number. *)
Theorem establish_without_budget (config : Config) (w : World) :
  MaxRetries config <= 0 ->
  establishFTPConnection config w =
    (Returns (config,
              Some ("failed to establish FTP connection after "
                      +:+ itoa (MaxRetries config) +:+ " attempts")), w).
Proof.
  intros HN. unfold establishFTPConnection.
  replace (Z.to_nat (MaxRetries config - 0)) with 0%nat by lia. done.
Qed.

Lemma establish_without_budget_witness :
  establishFTPConnection configNoRetry (emptyWorld healthy) =
    (Returns (configNoRetry,
              Some ("failed to establish FTP connection after "
                      +:+ itoa (MaxRetries configNoRetry) +:+ " attempts")),
     emptyWorld healthy).
Proof.
  apply (establish_without_budget configNoRetry (emptyWorld healthy)).
  simpl. lia.
Defined.

Lemma sleepsOf_app tr1 tr2 : sleepsOf (tr1 ++ tr2) = sleepsOf tr1 ++ sleepsOf tr2.
Proof. apply filter_app. Qed.

(** A failed attempt sleeps once, for [RetryInterval] nanoseconds. *)
Lemma connectLoop_failed_attempt_sleep remaining i addr config w :
  attemptFails (env w) addr (dials w) ->
  exists tr,
    connectLoop (S remaining) i addr config w =
      connectLoop remaining (i + 1) addr config
        (mkWorld (env w) (files w) (S (dials w)) (events w ++ tr)) /\
    dialAttempts tr = 1%nat /\
    sleepsOf tr = [Sleep (RetryInterval config)].
Proof.
  intros Hfail. cbn [connectLoop]. io_step.
  destruct (dialOutcome (env w) (dials w)) as [err|] eqn:Hdial;
    cbn [env files dials events].
  - eexists [_; _; _]. rewrite <- !app_assoc. done.
  - destruct Hfail as [[? ?]|[err Herr]]; [congruence|].
    rewrite Herr. cbn [env files dials events].
    eexists [_; _; _; _]. rewrite <- !app_assoc. done.
Qed.

Lemma connectLoop_all_attempts_fail remaining : forall i addr config w,
  (forall k, (dials w <= k < dials w + remaining)%nat ->
             attemptFails (env w) addr k) ->
  exists tr,
    connectLoop remaining i addr config w =
      (Returns (config, Some (attemptsExhausted config)),
       mkWorld (env w) (files w) (dials w + remaining) (events w ++ tr)) /\
    dialAttempts tr = remaining /\
    sleepsOf tr = replicate remaining (Sleep (RetryInterval config)).
Proof.
  induction remaining as [|n IH]; intros i addr config w Hfail.
  - exists []. destruct w. cbn. rewrite Nat.add_0_r, app_nil_r. done.
  - destruct (connectLoop_failed_attempt_sleep n i addr config w)
      as (tr1 & -> & Hd1 & Hs1); [apply Hfail; lia|].
    edestruct (IH (i + 1) addr config) as (tr & -> & Hd & Hs); cycle 1.
    + exists (tr1 ++ tr). cbn [env files dials events]. split; [|split].
      * rewrite <- !app_assoc.
        by replace (S (dials w) + n)%nat with (dials w + S n)%nat by lia.
      * unfold dialAttempts in *. rewrite count_app. lia.
      * by rewrite sleepsOf_app, Hs1, Hs.
    + cbn [env files dials events]. intros k Hk. apply Hfail. lia.
Qed.

(** X2. When every attempt the budget allows fails, whether at [Dial] or at
    [Login], [establishFTPConnection] makes all of them and returns the
    error of exhaustion with the configuration unchanged.  It sleeps once
    per attempt, the last one included, each time for [RetryInterval]
    taken as a number of nanoseconds. *)
Theorem establish_all_attempts_fail (config : Config) (w : World) :
  (forall k, (dials w <= k < dials w + Z.to_nat (MaxRetries config))%nat ->
             attemptFails (env w) (ftpAddr config) k) ->
  exists tr,
    establishFTPConnection config w =
      (Returns (config, Some (attemptsExhausted config)),
       mkWorld (env w) (files w) (dials w + Z.to_nat (MaxRetries config))
         (events w ++ tr)) /\
    dialAttempts tr = Z.to_nat (MaxRetries config) /\
    sleepsOf tr = replicate (Z.to_nat (MaxRetries config))
                    (Sleep (RetryInterval config)).
Proof.
  intros Hfail. unfold establishFTPConnection. rewrite Z.sub_0_r.
  by apply connectLoop_all_attempts_fail.
Qed.

Lemma establish_all_attempts_fail_witness :
  exists tr,
    establishFTPConnection sampleConfig (emptyWorld rejecting) =
      (Returns (sampleConfig, Some (attemptsExhausted sampleConfig)),
       mkWorld (env (emptyWorld rejecting)) (files (emptyWorld rejecting))
         (dials (emptyWorld rejecting) + Z.to_nat (MaxRetries sampleConfig))
         (events (emptyWorld rejecting) ++ tr)) /\
    dialAttempts tr = Z.to_nat (MaxRetries sampleConfig) /\
    sleepsOf tr = replicate (Z.to_nat (MaxRetries sampleConfig))
                    (Sleep (RetryInterval sampleConfig)).
Proof.
  apply (establish_all_attempts_fail sampleConfig (emptyWorld rejecting)).
  intros k _. right. simpl. eauto.
Defined.

Lemma attempt_fails_or_succeeds (e : Env) (addr : string) (k : nat) :
  attemptFails e addr k \/ attemptSucceeds e addr k.
Proof.
  unfold attemptFails, attemptSucceeds.
  destruct (dialOutcome e k), (loginOutcome e (mkServerConn addr k)); eauto.
Qed.

(** Among the first [n] attempts from [start] there is a first one that
    succeeds, or all of them fail. *)
Lemma first_success_or_all_fail (e : Env) (addr : string) (start n : nat) :
  (exists k, (k < n)%nat /\
     (forall j, (j < k)%nat -> attemptFails e addr (start + j)) /\
     attemptSucceeds e addr (start + k)) \/
  (forall k, (k < n)%nat -> attemptFails e addr (start + k)).
Proof.
  induction n as [|n [(k & Hk & Hbefore & Hok)|Hall]].
  - right. intros k Hk. lia.
  - left. exists k. split; [lia|done].
  - destruct (attempt_fails_or_succeeds e addr (start + n)) as [Hfail|Hok].
    + right. intros k Hk. destruct (decide (k = n)) as [->|Hne]; [done|].
      apply Hall. lia.
    + left. exists n. split; [lia|]. split; [|done].
      intros j Hj. by apply Hall.
Qed.

(** X3. Whatever the network answers, [establishFTPConnection] returns, has
    dialled at most [MaxRetries] times and has left the file system alone.
    It returns [nil] exactly when one of the attempts the budget allows
    succeeds: then it stops at the first such attempt and the configuration
    holds that attempt's connection; otherwise all the attempts were made,
    the error is the error of exhaustion and the configuration is
    unchanged. *)
Theorem establish_outcome (config : Config) (w : World) :
  exists r tr,
    establishFTPConnection config w =
      (Returns r,
       mkWorld (env w) (files w) (dials w + dialAttempts tr) (events w ++ tr)) /\
    (dialAttempts tr <= Z.to_nat (MaxRetries config))%nat /\
    ((exists k,
        (k < Z.to_nat (MaxRetries config))%nat /\
        (forall j, (j < k)%nat ->
           attemptFails (env w) (ftpAddr config) (dials w + j)) /\
        attemptSucceeds (env w) (ftpAddr config) (dials w + k) /\
        r = (setFTPConn config (mkServerConn (ftpAddr config) (dials w + k)), None) /\
        dialAttempts tr = S k) \/
     ((forall k, (k < Z.to_nat (MaxRetries config))%nat ->
         attemptFails (env w) (ftpAddr config) (dials w + k)) /\
      r = (config, Some (attemptsExhausted config)) /\
      dialAttempts tr = Z.to_nat (MaxRetries config))).
Proof.
  destruct (first_success_or_all_fail (env w) (ftpAddr config) (dials w)
              (Z.to_nat (MaxRetries config)))
    as [(k & Hk & Hbefore & Hok)|Hall].
  - unfold establishFTPConnection. rewrite Z.sub_0_r.
    destruct (connectLoop_first_success k (Z.to_nat (MaxRetries config)) 0
                (ftpAddr config) config w Hk Hbefore Hok) as (tr & Hrun & Hd & _).
    cbn zeta in Hrun. eexists. eexists. split; [|split].
    + rewrite Hrun. do 2 f_equal.
      unfold dialAttempts in *. rewrite count_app, !count_cons, count_nil, Hd.
      cbn. f_equal. lia.
    + unfold dialAttempts in *. rewrite count_app, !count_cons, count_nil, Hd.
      cbn. lia.
    + left. exists k. split_and!; try done.
      unfold dialAttempts in *. rewrite count_app, !count_cons, count_nil, Hd.
      cbn. lia.
  - unfold establishFTPConnection. rewrite Z.sub_0_r.
    destruct (connectLoop_all_attempts_fail (Z.to_nat (MaxRetries config)) 0
                (ftpAddr config) config w) as (tr & Hrun & Hd & _).
    { intros k Hk. replace k with (dials w + (k - dials w))%nat by lia.
      apply Hall. lia. }
    eexists. exists tr. rewrite Hd. split; [exact Hrun|]. split; [done|].
    right. done.
Qed.

(** ** [uploadFile] on every path through it *)

Lemma opens_false fs name :
  opens fs name = false ->
  exists err, forall w, files w = fs ->
    os_Open name w = (Returns (inr err), addEvents w [Open name]).
Proof.
  unfold opens, os_Open, addEvents, withEvent. intros Hopens.
  destruct (fs !! name) as [[data mt [|]|]|] eqn:Hfile; [done|..];
    eexists; intros w ->; by rewrite Hfile.
Qed.

(** X4. When the source file does not open (it is missing, a dangling link,
    or unreadable), [uploadFile] returns the error of [os.Open] and has done
    nothing else: no store, no close.  This holds without a connection in
    the configuration too. *)
Theorem uploadFile_open_failure (config : Config) (source target : string) (w : World) :
  opens (files w) source = false ->
  exists err,
    uploadFile config source target w =
      (Returns (Some err), addEvents w [Open source]).
Proof.
  intros Hopens. destruct (opens_false _ _ Hopens) as (err & Hopen).
  exists err. unfold uploadFile. unfold mbind at 1, IO_bind.
  by rewrite Hopen.
Qed.

Lemma uploadFile_open_failure_witness :
  exists err,
    uploadFile sampleConfig "out/snapshots/snapshot002.jpg"
        "/uploads/snapshot002.jpg" brokenWorld =
      (Returns (Some err),
       addEvents brokenWorld [Open "out/snapshots/snapshot002.jpg"]).
Proof.
  apply (uploadFile_open_failure sampleConfig "out/snapshots/snapshot002.jpg"
           "/uploads/snapshot002.jpg" brokenWorld).
  reflexivity.
Defined.

(** X5. When [Stor] fails, [uploadFile] returns the error of [Stor],
    whatever [Close] answers: the file is closed all the same, and an error
    of [Close] is only logged. *)
Theorem uploadFile_store_error_wins
    (config : Config) (c : ServerConn) (source target : string) (w : World)
    (data modTime : string) (storErr : error) :
  files w !! source = Some (Regular data modTime true) ->
  FTPConn config = Some c ->
  storOutcome (env w) c target = Some storErr ->
  uploadFile config source target w =
    (Returns (Some storErr),
     addEvents w
       (Open source :: Stor c target data :: Close source ::
        match closeOutcome (env w) source with
        | Some closeErr => [Log ("Failed to close the file: " +:+ closeErr)]
        | None => []
        end)).
Proof.
  intros Hfile Hc Hstor. unfold uploadFile, addEvents. rewrite Hc.
  io_unfold. rewrite Hfile. cbn [env files dials events fileName fileData].
  rewrite Hstor.
  destruct (closeOutcome (env w) source); cbn [env files dials events];
    rewrite <- !app_assoc; done.
Qed.

Lemma uploadFile_store_error_wins_witness :
  uploadFile connectedConfig "out/snapshots/snapshot001.jpg"
      "/uploads/snapshot001.jpg" failingStoreWorld =
    (Returns (Some "552 Storage allocation exceeded"),
     addEvents failingStoreWorld
       (Open "out/snapshots/snapshot001.jpg"
        :: Stor (mkServerConn "127.0.0.1:21" 0) "/uploads/snapshot001.jpg" "jpeg 1"
        :: Close "out/snapshots/snapshot001.jpg"
        :: match closeOutcome (env failingStoreWorld)
                   "out/snapshots/snapshot001.jpg" with
           | Some closeErr => [Log ("Failed to close the file: " +:+ closeErr)]
           | None => []
           end)).
Proof.
  apply (uploadFile_store_error_wins connectedConfig
           (mkServerConn "127.0.0.1:21" 0) "out/snapshots/snapshot001.jpg"
           "/uploads/snapshot001.jpg" failingStoreWorld "jpeg 1"
           "2023-06-14 10:00:01 +0300 EEST" "552 Storage allocation exceeded");
    reflexivity.
Defined.

Ltac counting := rewrite ?count_cons, ?count_nil; cbn; lia.

(** X6. On every path through [uploadFile] (the open fails, the store
    panics for want of a connection, fails or succeeds, the close fails or
    succeeds) the world changes by its trace only, the source file is opened
    once, it is closed once if it opened and never otherwise, and at most one
    store is made. *)
Theorem uploadFile_closes_what_it_opens
    (config : Config) (source target : string) (w : World) :
  exists tr,
    finalWorld (uploadFile config source target) w = addEvents w tr /\
    count isOpen tr = 1%nat /\
    count isClose tr = (if opens (files w) source then 1 else 0)%nat /\
    (count isStor tr <= 1)%nat /\
    (FTPConn config <> None ->
     exists err, outcome (uploadFile config source target) w = Returns err).
Proof.
  unfold finalWorld, outcome, uploadFile, opens, addEvents. io_unfold.
  destruct (files w !! source) as [[data mt [|]|]|];
    cbn [env files dials events fileName fileData fst snd];
    try (exists [Open source]; split_and!; [done|counting..|eauto]).
  destruct (FTPConn config) as [c|];
    cbn [env files dials events fileName fileData fst snd].
  - destruct (closeOutcome (env w) source) as [ce|],
             (storOutcome (env w) c target) as [se|];
      cbn [env files dials events fst snd]; rewrite <- ?app_assoc; cbn [app];
      (eexists; split_and!; [reflexivity|counting..|eauto]).
  - rewrite <- ?app_assoc. cbn [app].
    eexists. split_and!; [reflexivity|counting..|done].
Qed.

(** ** [uploadSnapshots] and [uploadMetadata]: what reaches the server *)

Lemma storsOf_cons e tr :
  storsOf (e :: tr) = if isStor e then e :: storsOf tr else storsOf tr.
Proof.
  unfold storsOf. rewrite filter_cons. destruct (isStor e); by case_decide.
Qed.

Lemma sleepsOf_cons e tr :
  sleepsOf (e :: tr) = if isSleep e then e :: sleepsOf tr else sleepsOf tr.
Proof.
  unfold sleepsOf. rewrite filter_cons. destruct (isSleep e); by case_decide.
Qed.

Lemma storsOf_app tr1 tr2 : storsOf (tr1 ++ tr2) = storsOf tr1 ++ storsOf tr2.
Proof. apply filter_app. Qed.

Ltac projecting :=
  rewrite ?storsOf_cons, ?sleepsOf_cons; cbn [isStor isSleep]; try done.

(** One turn of the loop of [uploadSnapshots]: the store it makes, if the
    file opens, and its one sleep. *)
Lemma uploadSnapshot_projections config c file w :
  FTPConn config = Some c ->
  exists block,
    uploadSnapshot config file w = (Returns tt, addEvents w block) /\
    storsOf block = option_list (storOf config c (files w) file) /\
    sleepsOf block = [Sleep (pacing config)].
Proof.
  intros Hc. unfold uploadSnapshot, uploadFile, storOf, pacing, addEvents.
  rewrite Hc. io_unfold.
  destruct (files w !! file) as [[data mt [|]|]|];
    cbn [env files dials events fileName fileData option_list];
    try (rewrite <- ?app_assoc; cbn [app]; eexists; split; [reflexivity|];
         split; projecting).
  destruct (closeOutcome (env w) file) as [ce|],
           (storOutcome (env w) c (Join (OutputDir config) (Base file))) as [se|];
    cbn [env files dials events]; rewrite <- ?app_assoc; cbn [app];
    (eexists; split; [reflexivity|]; split; projecting).
Qed.

Lemma forEach_uploadSnapshot_projections config c snapshotFiles : forall w,
  FTPConn config = Some c ->
  exists tr,
    forEach snapshotFiles (uploadSnapshot config) w = (Returns tt, addEvents w tr) /\
    storsOf tr = omap (storOf config c (files w)) snapshotFiles /\
    sleepsOf tr = replicate (length snapshotFiles) (Sleep (pacing config)).
Proof.
  induction snapshotFiles as [|file rest IH]; intros w Hc.
  - exists []. split; [|done]. unfold addEvents. destruct w; cbn.
    by rewrite app_nil_r.
  - destruct (uploadSnapshot_projections config c file w Hc)
      as (block & Hrun & Hstor & Hsleep).
    destruct (IH (addEvents w block) Hc) as (tr & Hrest & Hstors & Hsleeps).
    exists (block ++ tr). split; [|split].
    + cbn [forEach]. unfold mbind, IO_bind. rewrite Hrun, Hrest.
      by rewrite addEvents_addEvents.
    + rewrite storsOf_app, Hstor, Hstors. cbn [omap list_omap files addEvents].
      by destruct (storOf config c (files w) file).
    + by rewrite sleepsOf_app, Hsleep, Hsleeps.
Qed.

(** What [filepath.Glob] returns is an entry of the directory that matches
    the pattern, joined to the directory; [filepath.Base] gives its name
    back. *)
Lemma snapshotPaths_names dir fs path :
  path ∈ snapshotPaths dir fs ->
  exists name,
    name ∈ Readdirnames dir fs /\ matchSnapshot name = true /\
    path = Join dir name /\ Base path = name.
Proof.
  unfold snapshotPaths. intros (name & -> & Hin)%list_elem_of_fmap.
  apply list_elem_of_filter in Hin as [Hmatch Hin].
  unfold sort_Strings in Hin. rewrite merge_sort_Permutation in Hin.
  exists name. split_and!; try done.
  apply Base_Join. by eapply Readdirnames_isName.
Qed.



(** X8. With a connection, [uploadSnapshots] sleeps exactly once per file
    [filepath.Glob] found, after a failed upload as after a successful one,
    each time for [Interval] milliseconds (in nanoseconds, on 64 bits). *)
Theorem uploadSnapshots_paces_every_file (config : Config) (c : ServerConn) (w : World) :
  let dir := SnapshotOutputDir config in
  FTPConn config = Some c ->
  patternError (env w) (Join dir "snapshot*.jpg") = None ->
  exists tr,
    uploadSnapshots config w = (Returns tt, addEvents w tr) /\
    sleepsOf tr =
      replicate (length (snapshotPaths dir (files w)))
        (Sleep (wrap64 (1000000 * Interval config))).
Proof.
  intros dir Hc Hpat. subst dir. set (dir := SnapshotOutputDir config) in *.
  unfold uploadSnapshots.
  unfold mbind at 1 2, IO_bind, log_Println, emit, filepath_Glob.
  cbn [env files dials events]. fold dir. rewrite Hpat.
  destruct (forEach_uploadSnapshot_projections config c
              (snapshotPaths dir (files w))
              (addEvents w [Log "Uploading snapshots to FTPS..."]) Hc)
    as (tr & Hrun & _ & Hsleeps).
  exists (Log "Uploading snapshots to FTPS..." :: tr
            ++ [Log "Snapshot upload completed."]).
  split.
  - unfold mbind, IO_bind. unfold addEvents in Hrun at 1. rewrite Hrun.
    unfold emit, addEvents. cbn [env files dials events].
    rewrite <- !app_assoc. done.
  - rewrite sleepsOf_cons. cbn [isSleep]. rewrite sleepsOf_app, Hsleeps.
    rewrite sleepsOf_cons. cbn [isSleep]. apply app_nil_r.
Qed.

Lemma uploadSnapshots_paces_every_file_witness :
  exists tr,
    uploadSnapshots connectedConfig brokenWorld = (Returns tt, addEvents brokenWorld tr) /\
    sleepsOf tr =
      replicate (length (snapshotPaths (SnapshotOutputDir connectedConfig)
                           (files brokenWorld)))
        (Sleep (wrap64 (1000000 * Interval connectedConfig))).
Proof.
  apply (uploadSnapshots_paces_every_file connectedConfig
           (mkServerConn "127.0.0.1:21" 0) brokenWorld); reflexivity.
Defined.

(** X9. When the manifest file does not exist, as when [uploadMetadata]
    runs before [generateMetadata] has written it or after it was skipped,
    [uploadMetadata] logs the error of [os.Open] and stores nothing; it does
    so without a connection in the configuration too. *)
Theorem uploadMetadata_without_manifest (config : Config) (w : World) :
  files w !! CsvOutputFile config = None ->
  uploadMetadata config w =
    (Returns tt,
     addEvents w
       [Log "Uploading metadata to FTPS...";
        Open (CsvOutputFile config);
        Log ("Failed to upload metadata: " +:+ "open " +:+ CsvOutputFile config
               +:+ ": no such file or directory")]).
Proof.
  intros Hfile. unfold uploadMetadata, uploadFile, addEvents. io_unfold.
  rewrite Hfile. cbn [env files dials events]. rewrite <- !app_assoc. done.
Qed.

Lemma uploadMetadata_without_manifest_witness :
  uploadMetadata sampleConfig snapshotWorld =
    (Returns tt,
     addEvents snapshotWorld
       [Log "Uploading metadata to FTPS...";
        Open (CsvOutputFile sampleConfig);
        Log ("Failed to upload metadata: " +:+ "open " +:+ CsvOutputFile sampleConfig
               +:+ ": no such file or directory")]).
Proof.
  apply (uploadMetadata_without_manifest sampleConfig snapshotWorld).
  reflexivity.
Defined.




(** ** [generateMetadata]: what it writes and what it leaves alone *)

(** X11. Whatever the disk answers, [generateMetadata] returns and changes
    no entry of the file system but the manifest file: the snapshots and
    every other file are as they were. *)
Theorem generateMetadata_touches_only_the_manifest (config : Config) (w : World) :
  exists fs' tr,
    generateMetadata config w =
      (Returns tt, mkWorld (env w) fs' (dials w) (events w ++ tr)) /\
    forall path, path <> CsvOutputFile config -> fs' !! path = files w !! path.
Proof.
  unfold generateMetadata.
  unfold mbind at 1 2, IO_bind, log_Println, emit, filepath_Glob.
  cbn [env files dials events].
  destruct (patternError (env w)
              (Join (SnapshotOutputDir config) "snapshot*.jpg")) as [perr|].
  { cbn [env files dials events]. rewrite <- app_assoc. by eexists _, _. }
  case_bool_decide as Hlen.
  { cbn [env files dials events]. rewrite <- app_assoc. by eexists _, _. }
  unfold mbind at 1, IO_bind. rewrite statRecords_spec.
  unfold addEvents. cbn [env files dials events]. io_unfold.
  destruct (createOutcome (env w) (CsvOutputFile config)) as [cerr|];
    cbn [env files dials events fileName].
  { rewrite <- !app_assoc. by eexists _, _. }
  destruct (writeOutcome (env w) (CsvOutputFile config)) as [werr|];
    cbn [env files dials events fileName];
    (destruct (closeOutcome (env w) (CsvOutputFile config)) as [clerr|]);
    cbn [env files dials events fileName]; rewrite <- !app_assoc;
    (eexists _, _; split; [reflexivity|]); intros path Hpath;
    by rewrite !lookup_insert_ne.
Qed.

(** X12. When snapshot files are found and the manifest file cannot be
    created, [generateMetadata] logs the error of [os.Create] after the
    failures of [os.Stat], writes nothing and leaves the file system as it
    was. *)
Theorem generateMetadata_create_failure (config : Config) (w : World) (err : error) :
  let dir := SnapshotOutputDir config in
  let csv := CsvOutputFile config in
  let paths := snapshotPaths dir (files w) in
  patternError (env w) (Join dir "snapshot*.jpg") = None ->
  paths <> [] ->
  createOutcome (env w) csv = Some err ->
  generateMetadata config w =
    (Returns tt,
     addEvents w
       (Log "Generating metadata..." :: omap (statFailure (files w)) paths
        ++ [Create csv; Log ("Failed to create metadata file: " +:+ err)])).
Proof.
  intros dir csv paths Hpat Hpaths Hcreate. subst dir csv paths.
  unfold generateMetadata.
  unfold mbind at 1 2, IO_bind, log_Println, emit, filepath_Glob.
  cbn [env files dials events]. rewrite Hpat.
  rewrite bool_decide_eq_false_2 by (by intros ?%nil_length_inv).
  unfold mbind at 1, IO_bind. rewrite statRecords_spec.
  unfold addEvents. cbn [env files dials events]. io_unfold.
  rewrite Hcreate. cbn [env files dials events].
  rewrite <- !app_assoc. done.
Qed.

Lemma generateMetadata_create_failure_witness :
  generateMetadata sampleConfig (mkWorld readOnlyDisk threeSnapshots 0 []) =
    (Returns tt,
     addEvents (mkWorld readOnlyDisk threeSnapshots 0 [])
       (Log "Generating metadata..."
        :: omap (statFailure threeSnapshots)
             (snapshotPaths (SnapshotOutputDir sampleConfig) threeSnapshots)
        ++ [Create (CsvOutputFile sampleConfig);
            Log ("Failed to create metadata file: "
                   +:+ "open out/metadata.csv: read-only file system")])).
Proof.
  apply (generateMetadata_create_failure sampleConfig
           (mkWorld readOnlyDisk threeSnapshots 0 [])
           "open out/metadata.csv: read-only file system").
  - reflexivity.
  - vm_compute. discriminate.
  - reflexivity.
Defined.

Lemma no_rows_when_every_stat_fails w (paths : list string) :
  (forall file, file ∈ paths ->
     exists err, outcome (os_Stat file) w = Returns (inr err)) ->
  omap (manifestRow (files w)) paths = [].
Proof.
  induction paths as [|file rest IH]; intros Hstat; [done|].
  cbn [omap list_omap].
  destruct (Hstat file) as [err Herr]; [by left|].
  unfold outcome, os_Stat in Herr. unfold manifestRow at 1.
  destruct (files w !! file) as [[? ? ?|]|]; [done|..];
    apply IH; intros f Hf; apply Hstat; by right.
Qed.

(** X13. When snapshot files are found and [os.Stat] fails on every one of
    them, [generateMetadata] still writes the manifest: it holds the header
    row alone. *)
Theorem generateMetadata_header_only (config : Config) (w : World) :
  let dir := SnapshotOutputDir config in
  let csv := CsvOutputFile config in
  let paths := snapshotPaths dir (files w) in
  patternError (env w) (Join dir "snapshot*.jpg") = None ->
  paths <> [] ->
  (forall file, file ∈ paths ->
     exists err, outcome (os_Stat file) w = Returns (inr err)) ->
  createOutcome (env w) csv = None ->
  writeOutcome (env w) csv = None ->
  fileText (finalWorld (generateMetadata config) w) csv =
    Some ("Filename,Creation Time" +:+ String lfChar EmptyString).
Proof.
  intros dir csv paths Hpat Hpaths Hstat Hcreate Hwrite.
  unfold finalWorld.
  rewrite (generateMetadata_writes config w Hpat Hpaths Hcreate Hwrite).
  unfold fileText. cbn [snd files]. rewrite lookup_insert_eq.
  pose proof (no_rows_when_every_stat_fails w paths Hstat) as Hrows.
  subst paths dir. by rewrite Hrows.
Qed.

Lemma generateMetadata_header_only_witness :
  fileText (finalWorld (generateMetadata sampleConfig)
              (mkWorld healthy onlyDangling 0 []))
    (CsvOutputFile sampleConfig) =
    Some ("Filename,Creation Time" +:+ String lfChar EmptyString).
Proof.
  apply (generateMetadata_header_only sampleConfig
           (mkWorld healthy onlyDangling 0 [])).
  - reflexivity.
  - vm_compute. discriminate.
  - intros file Hfile.
    assert (file ∈ ["out/snapshots/snapshot001.jpg";
                    "out/snapshots/snapshot002.jpg"]) as Hin by exact Hfile.
    apply elem_of_cons in Hin as [->|Hin]; [vm_compute; eauto|].
    apply elem_of_cons in Hin as [->|Hin]; [vm_compute; eauto|].
    by apply elem_of_nil in Hin.
  - reflexivity.
  - reflexivity.
Defined.

(** *** Running [generateMetadata] again *)

Lemma keys_insert (fs : gmap string Node) (name : string) (n : Node) :
  (map_to_list (<[name := n]> fs)).*1 ≡ₚ
    match fs !! name with
    | None => name :: (map_to_list fs).*1
    | Some _ => (map_to_list fs).*1
    end.
Proof.
  destruct (fs !! name) as [old|] eqn:Hold.
  - rewrite <- (insert_delete_eq fs).
    rewrite <- (insert_delete_id fs name old Hold) at 2.
    rewrite !map_to_list_insert by apply lookup_delete_eq. done.
  - by rewrite map_to_list_insert.
Qed.

Lemma StronglySorted_filter {A} (R : relation A) (P : A -> Prop)
    `{!forall x, Decision (P x)} (l : list A) :
  StronglySorted R l -> StronglySorted R (filter P l).
Proof.
  induction 1 as [|x l Hsorted IH Hall]; [constructor|].
  rewrite filter_cons. case_decide; [|done].
  constructor; [done|]. apply Forall_forall.
  intros y [_ Hy]%list_elem_of_filter. rewrite Forall_forall in Hall. by apply Hall.
Qed.

(** Creating or rewriting a file that is not a snapshot of the directory
    does not change what [filepath.Glob] returns. *)
Lemma snapshotPaths_insert dir (fs : gmap string Node) (name : string) (n : Node) :
  (forall entry, childName dir name = Some entry -> matchSnapshot entry = false) ->
  snapshotPaths dir (<[name := n]> fs) = snapshotPaths dir fs.
Proof.
  intros Hname. unfold snapshotPaths. f_equal.
  apply (StronglySorted_unique String.le).
  - apply StronglySorted_filter, (StronglySorted_merge_sort String.le).
  - apply StronglySorted_filter, (StronglySorted_merge_sort String.le).
  - unfold sort_Strings. rewrite !merge_sort_Permutation.
    unfold Readdirnames. rewrite keys_insert.
    destruct (fs !! name); [done|].
    cbn [omap list_omap].
    destruct (childName dir name) as [entry|] eqn:Hentry; [|done].
    rewrite filter_cons, decide_False; [done|].
    rewrite (Hname entry eq_refl). done.
Qed.

Lemma trimPrefix_Some prefix s rest :
  trimPrefix prefix s = Some rest -> s = prefix +:+ rest.
Proof.
  revert s. induction prefix as [|c prefix IH]; intros [|d s] Htrim;
    cbn in Htrim; simplify_eq; try done.
  case_bool_decide; [|done]. subst. rewrite string_app_cons. f_equal. by apply IH.
Qed.

Lemma childName_Join dir name : isName name = true -> childName dir (Join dir name) = Some name.
Proof.
  intros Hname. unfold childName, Join.
  rewrite <- string_app_assoc, trimPrefix_app. by rewrite Hname.
Qed.

Lemma not_a_snapshot dir (fs : gmap string Node) (name : string) :
  (forall entry, childName dir name = Some entry -> matchSnapshot entry = false) ->
  name ∉ snapshotPaths dir fs.
Proof.
  intros Hname (entry & Hentry & Hmatch & -> & _)%snapshotPaths_names.
  apply Readdirnames_isName in Hentry.
  rewrite (Hname entry) in Hmatch; [done|]. by apply childName_Join.
Qed.

Lemma manifestRows_insert (fs : gmap string Node) (name : string) (n : Node)
    (paths : list string) :
  name ∉ paths ->
  omap (manifestRow (<[name := n]> fs)) paths = omap (manifestRow fs) paths.
Proof.
  induction paths as [|file rest IH]; intros Hnotin; [done|].
  apply not_elem_of_cons in Hnotin as [Hne Hnotin].
  assert (manifestRow (<[name := n]> fs) file = manifestRow fs file) as Hrow.
  { unfold manifestRow. by rewrite lookup_insert_ne. }
  cbn [omap list_omap]. by rewrite Hrow, IH.
Qed.

(** X14. Run a second time, in the world the first run left,
    [generateMetadata] finds the same snapshot files and rewrites the
    manifest with the same text, provided the manifest file is not itself a
    snapshot of the snapshot directory (an entry of it whose name matches
    the pattern). *)
Theorem generateMetadata_rerun (config : Config) (w : World) :
  let dir := SnapshotOutputDir config in
  let csv := CsvOutputFile config in
  let paths := snapshotPaths dir (files w) in
  let text := writeRecords (csvHeader :: omap (manifestRow (files w)) paths) in
  let w1 := finalWorld (generateMetadata config) w in
  patternError (env w) (Join dir "snapshot*.jpg") = None ->
  paths <> [] ->
  createOutcome (env w) csv = None ->
  writeOutcome (env w) csv = None ->
  (forall entry, childName dir csv = Some entry -> matchSnapshot entry = false) ->
  fileText w1 csv = Some text /\
  snapshotPaths dir (files w1) = paths /\
  fileText (finalWorld (generateMetadata config) w1) csv = Some text.
Proof.
  intros dir csv paths text w1 Hpat Hpaths Hcreate Hwrite Hcsv.
  assert (w1 = (generateMetadata config w).2) as Hw1 by done.
  rewrite (generateMetadata_writes config w Hpat Hpaths Hcreate Hwrite) in Hw1.
  cbn [snd] in Hw1.
  assert (snapshotPaths dir (files w1) = paths) as Hsame.
  { rewrite Hw1. cbn [files]. by rewrite !snapshotPaths_insert. }
  assert (fileText w1 csv = Some text) as Htext.
  { rewrite Hw1. unfold fileText. cbn [files]. by rewrite lookup_insert_eq. }
  split; [done|]. split; [done|].
  unfold finalWorld. rewrite generateMetadata_writes.
  - unfold fileText. cbn [snd files]. rewrite lookup_insert_eq.
    fold dir. rewrite Hsame. rewrite Hw1 at 1. cbn [files].
    rewrite !manifestRows_insert by (by apply not_a_snapshot). done.
  - by rewrite Hw1.
  - fold dir. by rewrite Hsame.
  - by rewrite Hw1.
  - by rewrite Hw1.
Qed.

Lemma generateMetadata_rerun_witness :
  let w1 := finalWorld (generateMetadata sampleConfig) snapshotWorld in
  let text :=
    writeRecords
      (csvHeader ::
       omap (manifestRow (files snapshotWorld))
         (snapshotPaths (SnapshotOutputDir sampleConfig) (files snapshotWorld))) in
  fileText w1 (CsvOutputFile sampleConfig) = Some text /\
  snapshotPaths (SnapshotOutputDir sampleConfig) (files w1)
    = snapshotPaths (SnapshotOutputDir sampleConfig) (files snapshotWorld) /\
  fileText (finalWorld (generateMetadata sampleConfig) w1)
    (CsvOutputFile sampleConfig) = Some text.
Proof.
  apply (generateMetadata_rerun sampleConfig snapshotWorld).
  - reflexivity.
  - vm_compute. discriminate.
  - reflexivity.
  - reflexivity.
  - intros entry Hentry. vm_compute in Hentry. discriminate.
Defined.

(** ** The manifest text and the file names *)

(** X15. The text of a manifest determines its records: two lists of
    records, each record with a field at least, that [csv.Writer] writes as
    the same text are the same list. *)
Theorem writeRecords_injective (records1 records2 : list (list string)) :
  Forall (fun record => record <> []) records1 ->
  Forall (fun record => record <> []) records2 ->
  writeRecords records1 = writeRecords records2 ->
  records1 = records2.
Proof.
  intros H1 H2 Heq.
  apply readAll_writeRecords in H1. apply readAll_writeRecords in H2.
  rewrite Heq in H1. congruence.
Qed.

Lemma writeRecords_injective_witness :
  [csvHeader; ["snapshot001.jpg"; "2023-06-14 10:00:01 +0300 EEST"]]
    = [csvHeader; ["snapshot001.jpg"; "2023-06-14 10:00:01 +0300 EEST"]].
Proof.
  apply (writeRecords_injective
           [csvHeader; ["snapshot001.jpg"; "2023-06-14 10:00:01 +0300 EEST"]]
           [csvHeader; ["snapshot001.jpg"; "2023-06-14 10:00:01 +0300 EEST"]]).
  - repeat constructor; discriminate.
  - repeat constructor; discriminate.
  - reflexivity.
Defined.

Lemma pretty_N_go_chars (P : ascii -> Prop) (x : N) : forall s,
  (forall d, P (pretty_N_char d)) ->
  Forall P (String.list_ascii_of_string s) ->
  Forall P (String.list_ascii_of_string (pretty_N_go x s)).
Proof.
  induction (N.lt_wf_0 x) as [x _ IH]; intros s Hdigit Hs.
  assert (x = 0 \/ 0 < x)%N as [->|Hpos] by lia.
  - by rewrite pretty_N_go_0.
  - rewrite pretty_N_go_step by done. apply IH; [by apply N.div_lt|done|].
    cbn [String.list_ascii_of_string]. by constructor.
Qed.

Lemma pretty_nat_chars (P : ascii -> Prop) (k : nat) :
  (forall d, P (pretty_N_char d)) ->
  Forall P (String.list_ascii_of_string (pretty k)).
Proof.
  intros Hdigit. unfold pretty, pretty_nat, pretty, pretty_N.
  case_decide.
  - repeat constructor. apply (Hdigit 0%N).
  - apply pretty_N_go_chars; [done|constructor].
Qed.

Lemma digit_not_separator d : IsPathSeparator (pretty_N_char d) = false.
Proof. unfold pretty_N_char. by repeat case_match. Qed.

(** The names ffmpeg is told to write are file names. *)
Lemma isName_snapshotName (k : nat) : isName (snapshotName k) = true.
Proof.
  unfold isName. apply andb_true_iff. split; [by apply bool_decide_eq_true|].
  apply forallb_forall. intros c Hin%list_elem_of_In.
  apply negb_true_iff. revert c Hin. apply Forall_forall.
  unfold snapshotName, pad3. rewrite !list_ascii_of_string_app.
  rewrite String.list_ascii_of_string_of_list_ascii.
  repeat apply Forall_app_2.
  - by repeat constructor.
  - apply Forall_replicate. done.
  - apply pretty_nat_chars, digit_not_separator.
  - by repeat constructor.
Qed.

(** X16. The names [generateSnapshots] has ffmpeg write
    ([snapshot%03d.jpg], whatever the number of digits) are names
    [generateMetadata] and [uploadSnapshots] look for: a file of that name in
    the snapshot directory is among the files [filepath.Glob] returns, and
    [filepath.Base] of its path is that name. *)
Theorem written_snapshots_are_found
    (dir : string) (fs : gmap string Node) (k : nat) (node : Node) :
  fs !! Join dir (snapshotName k) = Some node ->
  Join dir (snapshotName k) ∈ snapshotPaths dir fs /\
  Base (Join dir (snapshotName k)) = snapshotName k.
Proof.
  intros Hfile. split; [|apply Base_Join, isName_snapshotName].
  unfold snapshotPaths. apply list_elem_of_fmap_2.
  apply list_elem_of_filter. split; [apply matchSnapshot_snapshotName|].
  unfold sort_Strings. rewrite merge_sort_Permutation.
  unfold Readdirnames. apply list_elem_of_omap.
  exists (Join dir (snapshotName k)). split.
  - apply list_elem_of_fmap. exists (Join dir (snapshotName k), node).
    split; [done|]. by apply elem_of_map_to_list.
  - apply childName_Join, isName_snapshotName.
Qed.

Lemma written_snapshots_are_found_witness :
  Join "out/snapshots" (snapshotName 2) ∈ snapshotPaths "out/snapshots" threeSnapshots /\
  Base (Join "out/snapshots" (snapshotName 2)) = snapshotName 2.
Proof.
  apply (written_snapshots_are_found "out/snapshots" threeSnapshots 2
           (Regular "jpeg 2" "2023-06-14 10:00:02 +0300 EEST" true)).
  reflexivity.
Defined.

(** ** The wait group, progress and termination of the coordinator *)

Module SchedulingFacts.
Import Coordinator CoordinatorFacts Scheduling.

Lemma pending_zero c : pending c = 0%nat -> c = Some [].
Proof. by destruct c as [[|? ?]|]. Qed.

Lemma barrier_initial : barrier initial [].
Proof.
  exists 0%nat. unfold returned, initial. cbn [code wg drop].
  split_and!; try done; try lia. all: by intros [?|?].
Qed.

Ltac use_bounds :=
  repeat match goal with
  | H : (?a <= ?b)%nat -> _ |- _ =>
      first [ specialize (H ltac:(lia)) | clear H ]
  end.

Ltac piece :=
  code_simpl; cbn [body]; unfold returned in *; intros;
  destruct_and?; destruct_or?; simplify_eq;
  repeat match goal with
  | H : code ?s ?t = _ |- context [code ?s ?t] => rewrite H
  | H : code ?s ?t = _, H' : context [code ?s ?t] |- _ =>
      lazymatch H' with H => fail | _ => rewrite H in H' end
  end;
  cbn [pending] in *;
  first [ done | lia | congruence | exfalso; lia
        | apply in_snoc_r | apply in_snoc_l; auto
        | split_and!; first [done | congruence | apply pending_zero; lia] ].

Ltac at_position n tac :=
  do 10 (destruct n as [|n]; [use_bounds; tac|]); exfalso; lia.

Ltac stay Hmain n :=
  at_position n ltac:(
    match type of Hmain with _ = Some (drop ?m _) => exists m end;
    split_and!; piece).

Ltac advance Hmain Hcode n :=
  at_position n ltac:(
    rewrite Hmain in Hcode; cbn [drop mainBody] in Hcode; simplify_eq;
    match type of Hmain with _ = Some (drop ?m _) => exists (S m) end;
    split_and!; piece).

(** Every step keeps the account of the wait group. *)
Lemma barrier_step s tr a s' :
  invariant s tr -> barrier s tr -> step s a s' -> barrier s' (tr ++ [a]).
Proof.
  intros Hinv (n & Hn & Hmain & H3 & H4 & H5 & H6 & H7 & Hr1 & Hr2) Hstep.
  destruct Hstep as [s t f k _ Hcode | s t f k _ Hcode
                    | s t1 t2 c k1 k2 _ Hne Hsend Hrecv | s t g k _ Hcode
                    | s t m k _ Hcode | s t k _ Hcode | s t k _ Hcode Hwg
                    | s t k _ Hcode | s t k _ Hcode | s _ Hcode].
  - destruct (owner_call _ _ _ _ _ Hinv Hcode) as [H|[H|[H|[H|H]]]];
      destruct_and?; subst; stay Hmain n.
  - destruct (owner_running _ _ _ _ _ Hinv Hcode) as [H|[H|[H|[H|H]]]];
      destruct_and?; subst; stay Hmain n.
  - destruct (owner_send _ _ _ _ _ Hinv Hsend) as [H|H];
      destruct (owner_recv _ _ _ _ _ Hinv Hrecv) as [H'|H'];
      destruct_and?; simplify_eq; stay Hmain n.
  - pose proof (owner_go _ _ _ _ _ Hinv Hcode) as ->.
    destruct Hinv as (Hmainok & _).
    destruct (mainOk_go _ _ _ Hmainok Hcode) as [Hfresh _].
    advance Hmain Hcode n.
  - destruct (owner_other _ _ _ _ _ Hinv Hcode) as [->|[H|H]];
      [eauto| |destruct_and?; discriminate..].
    advance Hmain Hcode n.
  - destruct (owner_other _ _ _ _ _ Hinv Hcode) as [->|[H|H]];
      [eauto| | |]; destruct_and?; subst;
      first [ advance Hmain Hcode n | stay Hmain n ].
  - destruct (owner_other _ _ _ _ _ Hinv Hcode) as [->|[H|H]];
      [eauto 10| |destruct_and?; discriminate..].
    advance Hmain Hcode n.
  - destruct (owner_other _ _ _ _ _ Hinv Hcode) as [->|[H|H]];
      [eauto 10| |destruct_and?; discriminate..].
    advance Hmain Hcode n.
  - destruct (owner_other _ _ _ _ _ Hinv Hcode) as [->|[H|H]];
      [eauto 10| |destruct_and?; discriminate..].
    advance Hmain Hcode n.
  - stay Hmain n.
Qed.

Lemma run_barrier tr s : run initial tr s -> invariant s tr /\ barrier s tr.
Proof.
  induction 1 as [|tr s a s' _ [Hinv Hbar] Hstep].
  - split; [apply invariant_initial|apply barrier_initial].
  - split; [by apply (step_preserves s tr a s')|by apply (barrier_step s)].
Qed.

(** The run [uploadsFirst] is a run of the program, to its exit. *)
Lemma uploadsFirst_run : exists s, run initial uploadsFirst s /\ exited s = true.
Proof.
  pose proof (run_nil initial) as Hrun.
  eapply run_step in Hrun; [|eapply (step_go _ Main); reflexivity].
  eapply run_step in Hrun; [|eapply (step_go _ Main); reflexivity].
  eapply run_step in Hrun; [|eapply (step_go _ Main); reflexivity].
  eapply run_step in Hrun; [|eapply (step_wg_add _ Main); reflexivity].
  eapply run_step in Hrun; [|eapply (step_go _ Main); reflexivity].
  eapply run_step in Hrun; [|eapply (step_go _ Main); reflexivity].
  eapply run_step in Hrun;
    [|eapply (step_call _ (Spawned UploadSnapshotsTask)); reflexivity].
  eapply run_step in Hrun;
    [|eapply (step_return _ (Spawned UploadSnapshotsTask)); reflexivity].
  eapply run_step in Hrun;
    [|eapply (step_wg_done _ (Spawned UploadSnapshotsTask)); reflexivity].
  eapply run_step in Hrun;
    [|eapply (step_call _ (Spawned UploadMetadataTask)); reflexivity].
  eapply run_step in Hrun;
    [|eapply (step_return _ (Spawned UploadMetadataTask)); reflexivity].
  eapply run_step in Hrun;
    [|eapply (step_wg_done _ (Spawned UploadMetadataTask)); reflexivity].
  eapply run_step in Hrun; [|eapply (step_wg_wait _ Main); reflexivity].
  eapply run_step in Hrun; [|eapply (step_sleep _ Main); reflexivity].
  eapply run_step in Hrun; [|eapply (step_log _ Main); reflexivity].
  eapply run_step in Hrun; [|eapply step_exit; reflexivity].
  eexists. split; [exact Hrun|reflexivity].
Qed.

(** The run [sampleRun] is a run of the program, not yet at its exit. *)
Lemma sampleRun_run : exists s, run initial sampleRun s /\ exited s = false.
Proof.
  pose proof (run_nil initial) as Hrun.
  eapply run_step in Hrun; [|eapply (step_go _ Main); reflexivity].
  eapply run_step in Hrun;
    [|eapply (step_call _ (Spawned VideoTask)); reflexivity].
  eapply run_step in Hrun;
    [|eapply (step_return _ (Spawned VideoTask)); reflexivity].
  eapply run_step in Hrun; [|eapply (step_go _ Main); reflexivity].
  eapply run_step in Hrun;
    [|eapply (step_signal _ (Spawned VideoTask) (Spawned SnapshotsTask));
      [reflexivity|discriminate|reflexivity|reflexivity]].
  eapply run_step in Hrun;
    [|eapply (step_call _ (Spawned SnapshotsTask)); reflexivity].
  eexists. split; [exact Hrun|reflexivity].
Qed.

(** The position of [main] at its end. *)
Lemma main_at_end n : (n <= 9)%nat -> drop n mainBody = [] -> n = 9%nat.
Proof.
  intros Hn Hdrop. do 9 (destruct n as [|n]; [discriminate|]). lia.
Qed.

(** X17. The join barrier: in every run, [main] returns (and the process
    exits) only after [uploadSnapshots] and [uploadMetadata] have both
    returned. *)
Theorem exit_waits_for_the_uploads (tr : list Action) (s : State) :
  run initial tr s ->
  precedes (End UploadSnapshots) Exit tr /\
  precedes (End UploadMetadata) Exit tr.
Proof.
  induction 1 as [|tr s a s' Hrun [IH1 IH2] Hstep].
  - split; apply precedes_nil.
  - apply run_barrier in Hrun as [Hinv Hbar].
    assert (a = Exit -> End UploadSnapshots ∈ tr /\ End UploadMetadata ∈ tr)
      as Hexit.
    { intros ->. inversion Hstep as [| | | | | | | | |s0 _ Hcode]; subst.
      destruct Hbar as (n & Hn & Hmain & _ & _ & _ & _ & H7 & Hr1 & Hr2).
      rewrite Hcode in Hmain. injection Hmain as Hdrop.
      apply main_at_end in Hn as ->; [|done].
      destruct H7 as [Hus Hum]; [lia|].
      split; [apply Hr1|apply Hr2]; by right. }
    split; apply precedes_snoc; try done; intros Ha; by apply Hexit.
Qed.

Lemma exit_waits_for_the_uploads_witness :
  precedes (End UploadSnapshots) Exit uploadsFirst /\
  precedes (End UploadMetadata) Exit uploadsFirst.
Proof.
  destruct uploadsFirst_run as (s & Hrun & _).
  exact (exit_waits_for_the_uploads uploadsFirst s Hrun).
Defined.

(** X18. Nothing orders the uploads after the generation stages, and [main]
    waits for the uploads only: there is a run in which both upload stages
    return and the process exits while no generation stage has begun. *)
Theorem uploads_are_not_gated :
  exists s,
    run initial uploadsFirst s /\ exited s = true /\
    End UploadSnapshots ∈ uploadsFirst /\ End UploadMetadata ∈ uploadsFirst /\
    (Begin GenerateTestVideo ∉ uploadsFirst) /\
    (Begin GenerateSnapshots ∉ uploadsFirst) /\
    (Begin GenerateMetadata ∉ uploadsFirst).
Proof.
  destruct uploadsFirst_run as (s & Hrun & Hexited).
  exists s. split; [exact Hrun|]. split; [exact Hexited|].
  unfold uploadsFirst.
  split_and!; apply (bool_decide_unpack _); by vm_compute.
Qed.

(** Until the process has exited, some thread can take a step. *)
Lemma some_thread_can_step tr s :
  run initial tr s -> exited s = false -> exists a s', step s a s'.
Proof.
  intros Hrun Hex. apply run_barrier in Hrun as [Hinv Hbar].
  destruct Hbar as (n & Hn & Hmain & H3 & H4 & H5 & H6 & H7 & _ & _).
  destruct Hinv as (_ & _ & _ & _ & Hus & Hum).
  destruct n as [|[|[|[|[|[|[|[|[|[|n]]]]]]]]]]; [..|exfalso; lia];
    cbn [drop mainBody] in Hmain; use_bounds;
    try (eexists _, _;
         first [ by eapply (step_go _ Main)
               | by eapply (step_wg_add _ Main)
               | by eapply (step_sleep _ Main)
               | by eapply (step_log _ Main)
               | by eapply step_exit ]).
  destruct (decide (wg s = 0%nat)) as [Hwg|Hwg].
  { eexists _, _. by eapply (step_wg_wait _ Main). }
  assert (code s (Spawned UploadSnapshotsTask) <> Some [] \/
          code s (Spawned UploadMetadataTask) <> Some []) as [Hpending|Hpending].
  { destruct (code s (Spawned UploadSnapshotsTask)) as [[|? ?]|];
      destruct (code s (Spawned UploadMetadataTask)) as [[|? ?]|];
      cbn [pending] in H4; first [lia | by left | by right]. }
  - unfold uploadOk in Hus. destruct_or! Hus; try done; eexists _, _.
    + by eapply (step_call _ (Spawned UploadSnapshotsTask)).
    + by eapply (step_return _ (Spawned UploadSnapshotsTask)).
    + by eapply (step_wg_done _ (Spawned UploadSnapshotsTask)).
  - unfold uploadOk in Hum. destruct_or! Hum; try done; eexists _, _.
    + by eapply (step_call _ (Spawned UploadMetadataTask)).
    + by eapply (step_return _ (Spawned UploadMetadataTask)).
    + by eapply (step_wg_done _ (Spawned UploadMetadataTask)).
Qed.

(** X19. The coordinator never deadlocks: in every state a run reaches,
    until the process has exited, some thread can take a step. *)
Theorem coordinator_never_deadlocks (tr : list Action) (s : State) :
  run initial tr s -> exited s = false -> exists a s', step s a s'.
Proof. exact (some_thread_can_step tr s). Qed.

Lemma coordinator_never_deadlocks_witness :
  exists s, run initial sampleRun s /\ exists a s', step s a s'.
Proof.
  destruct sampleRun_run as (s & Hrun & Hex).
  exists s. split; [exact Hrun|].
  exact (coordinator_never_deadlocks sampleRun s Hrun Hex).
Defined.

(** Every step is one of the actions the state has left. *)
Lemma step_measure s tr a s' :
  invariant s tr -> step s a s' -> measure s = S (measure s').
Proof.
  intros Hinv Hstep.
  destruct Hstep as [s t f k Hex Hcode | s t f k Hex Hcode
                    | s t1 t2 c k1 k2 Hex Hne Hsend Hrecv | s t g k Hex Hcode
                    | s t n k Hex Hcode | s t k Hex Hcode | s t k Hex Hcode _
                    | s t k Hex Hcode | s t k Hex Hcode | s Hex Hcode].
  3: { destruct t1 as [|[]], t2 as [|[]]; try done;
         unfold measure, threadCost; code_simpl;
         rewrite Hex, Hsend, Hrecv; cbn; lia. }
  3: { pose proof (owner_go _ _ _ _ _ Hinv Hcode) as ->.
       destruct Hinv as (Hmain & _).
       destruct (mainOk_go _ _ _ Hmain Hcode) as [Hfresh _].
       destruct g; unfold measure, threadCost; code_simpl;
         rewrite Hex, Hcode, Hfresh; cbn; lia. }
  all: try (destruct t as [|[]]; unfold measure, threadCost; code_simpl;
            rewrite Hex, Hcode; cbn; lia).
  unfold measure, threadCost. cbn [code exited]. rewrite Hex, Hcode. cbn. lia.
Qed.

Lemma run_measure tr s :
  run initial tr s -> (length tr + measure s = 24)%nat.
Proof.
  induction 1 as [|tr s a s' Hrun IH Hstep]; [reflexivity|].
  destruct (run_invariant _ _ Hrun) as [Hinv _].
  rewrite length_app. cbn [length].
  pose proof (step_measure _ _ _ _ Hinv Hstep). lia.
Qed.

(** X20. No run of the coordinator has more than 24 actions: five
    goroutines started, five stages begun and returned, two signals, four
    steps on the wait group, the sleep, the log and the exit. *)
Theorem runs_are_bounded (tr : list Action) (s : State) :
  run initial tr s -> (length tr <= 24)%nat.
Proof. intros Hrun. pose proof (run_measure _ _ Hrun). lia. Qed.

Lemma runs_are_bounded_witness : (length sampleRun <= 24)%nat.
Proof.
  destruct sampleRun_run as (s & Hrun & _).
  exact (runs_are_bounded sampleRun s Hrun).
Defined.

Lemma run_completes m : forall tr s,
  (measure s <= m)%nat -> run initial tr s ->
  exists rest s', run initial (tr ++ rest) s' /\ exited s' = true.
Proof.
  induction m as [|m IH]; intros tr s Hm Hrun.
  - destruct (exited s) eqn:Hex.
    + exists [], s. by rewrite app_nil_r.
    + unfold measure in Hm. rewrite Hex in Hm. lia.
  - destruct (exited s) eqn:Hex.
    + exists [], s. by rewrite app_nil_r.
    + destruct (some_thread_can_step _ _ Hrun Hex) as (a & s' & Hstep).
      destruct (run_invariant _ _ Hrun) as [Hinv _].
      pose proof (step_measure _ _ _ _ Hinv Hstep) as Hless.
      destruct (IH (tr ++ [a]) s') as (rest & s'' & Hrest & Hdone);
        [lia|by eapply run_step|].
      exists (a :: rest), s''. split; [|done].
      by rewrite <- app_assoc in Hrest.
Qed.

(** A state that has exited was reached by the exit, after both uploads. *)
Lemma exited_uploads_returned tr s :
  run initial tr s -> exited s = true ->
  End UploadSnapshots ∈ tr /\ End UploadMetadata ∈ tr.
Proof.
  destruct 1 as [|tr s a s' Hrun Hstep]; intros Hex; [discriminate|].
  apply run_barrier in Hrun as [_ Hbar].
  destruct Hstep as [s t f k Hno _ | s t f k Hno _ | s t1 t2 c k1 k2 Hno _ _ _
                    | s t g k Hno _ | s t n k Hno _ | s t k Hno _
                    | s t k Hno _ _ | s t k Hno _ | s t k Hno _ | s _ Hcode];
    try (unfold setCode, setWg in Hex; cbn [exited] in Hex; congruence).
  destruct Hbar as (n & Hn & Hmain & _ & _ & _ & _ & H7 & Hr1 & Hr2).
  rewrite Hcode in Hmain. injection Hmain as Hdrop.
  symmetry in Hdrop. apply main_at_end in Hn as ->; [|done].
  destruct H7 as [Hus Hum]; [lia|].
  split; apply in_snoc_l; [apply Hr1|apply Hr2]; by right.
Qed.

(** X21. Whatever the scheduler has done so far, the program can still
    finish: every run extends to a run that reaches the exit, and by then
    both upload stages have returned. *)
Theorem every_run_can_finish (tr : list Action) (s : State) :
  run initial tr s ->
  exists rest s',
    run initial (tr ++ rest) s' /\ exited s' = true /\
    End UploadSnapshots ∈ tr ++ rest /\ End UploadMetadata ∈ tr ++ rest.
Proof.
  intros Hrun.
  destruct (run_completes (measure s) tr s) as (rest & s' & Hrest & Hdone);
    [done|done|].
  exists rest, s'. split; [done|]. split; [done|].
  exact (exited_uploads_returned _ _ Hrest Hdone).
Qed.

Lemma every_run_can_finish_witness :
  exists rest s',
    run initial (sampleRun ++ rest) s' /\ exited s' = true /\
    End UploadSnapshots ∈ sampleRun ++ rest /\
    End UploadMetadata ∈ sampleRun ++ rest.
Proof.
  destruct sampleRun_run as (s & Hrun & _).
  exact (every_run_can_finish sampleRun s Hrun).
Defined.

End SchedulingFacts.
